(** * ProcMonUI: process tree, filter and batch action engine

    A shallow embedding of the core of [ProcMonUI.cpp] (the Win32 process
    monitor): the process snapshot, the parent->children index and its
    traversal, the case-insensitive filter, and the kill/suspend/resume
    loop of [ActOnSelection].  The graphical shell is left out; what the
    core reads from it (the selected rows, the Tree check box, the search
    text) is an argument of the embedded function. *)

From stdpp Require Import gmap list sorting relations strings.
From Stdlib Require DecimalN DecimalFacts.

Set Default Proof Using "Type".
#[local] Set Warnings "-clear-no-such-hyp,-register-all".

(** ** Data model *)

(** [DWORD], [SIZE_T] and [wchar_t] are unsigned machine integers.  The core
    only stores, compares and orders them, so they are natural numbers in
    binary ([N]); no arithmetic is done on them. *)
Abbreviation DWORD := N (only parsing).
Abbreviation SIZE_T := N (only parsing).
Abbreviation wchar_t := N (only parsing).
Abbreviation wstring := (list N) (only parsing).
Abbreviation HANDLE := N (only parsing).

(** [struct Proc]. *)
Record Proc := mkProc {
  pid : DWORD;
  ppid : DWORD;
  name : wstring;
  path : wstring;
  rss : SIZE_T
}.

#[global] Instance Proc_eq_dec : EqDecision Proc.
Proof. solve_decision. Defined.

(** ** Process tree index *)

(** [BuildChildren]: [for (auto& p : v) m[p.ppid].push_back(p.pid);].
    [m[k]] creates an empty bucket when [k] is absent. *)
Definition BuildChildren (v : list Proc) : gmap N (list N) :=
  foldl (λ m p, <[ppid p := default [] (m !! ppid p) ++ [pid p]]> m) ∅ v.

(** [CollectTree] is recursive without any bound of its own; [fuel] bounds
    the depth of the recursion, and [None] stands for a run that needs more
    stack frames than [fuel].  A traversal that returns [None] for every
    [fuel] does not return. *)
Fixpoint CollectTree (fuel : nat) (pid : DWORD) (ch : gmap N (list N))
    (out : list N) : option (list N) :=
  match fuel with
  | O => None
  | S fuel' =>
      let out := out ++ [pid] in
      match ch !! pid with
      | None => Some out
      | Some cs =>
          foldl (λ acc c, out' ← acc; CollectTree fuel' c ch out') (Some out) cs
      end
  end.

(** [resolveSubtree(index, rootPid)] of the specification: the vector that
    [CollectTree] fills, started on an empty [out], when the traversal
    returns. *)
Definition resolveSubtree (index : gmap N (list N)) (rootPid : DWORD)
    (out : list N) : Prop :=
  ∃ fuel, CollectTree fuel rootPid index [] = Some out.

(** [CollectTree] once more, keeping the vector when the frames run out.
    The result is [out] as it stands when the call returns, with [true], or
    as it stands when the recursion is about to enter frame [fuel + 1], with
    [false]; from then on nothing more is pushed.  So the first component is
    a state that the vector of the program goes through, also in a run that
    does not return. *)
Fixpoint CollectTree_partial (fuel : nat) (pid : DWORD) (ch : gmap N (list N))
    (out : list N) : list N * bool :=
  match fuel with
  | O => (out, false)
  | S fuel' =>
      let out := out ++ [pid] in
      match ch !! pid with
      | None => (out, true)
      | Some cs =>
          foldl (λ (acc : list N * bool) c,
                   if acc.2 then CollectTree_partial fuel' c ch acc.1 else acc)
                (out, true) cs
      end
  end.

(** The recursion from [p] is well founded in [index]: it is so from every
    pid of the bucket of [p].  A pid without a bucket, or with an empty one,
    is the base case. *)
Inductive well_founded_below (index : gmap N (list N)) : N → Prop :=
  | well_founded_below_intro p :
      (∀ cs c, index !! p = Some cs → c ∈ cs → well_founded_below index c) →
      well_founded_below index p.

(** The direct children of [p], in snapshot order. *)
Definition children (v : list Proc) (p : DWORD) : list N :=
  pid <$> filter (λ r, ppid r = p) v.

(** [child v c p]: some record of the snapshot has pid [c] and parent [p]. *)
Definition child (v : list Proc) (c p : DWORD) : Prop :=
  ∃ r, r ∈ v ∧ pid r = c ∧ ppid r = p.

(** [descendant v x a]: [x] is reached from [a] by one or more child links. *)
Definition descendant (v : list Proc) : relation N := tc (child v).

(** The parent links of a snapshot are acyclic when no pid is its own
    descendant. *)
Definition acyclic (v : list Proc) : Prop := ∀ x, ¬ descendant v x x.

(** A snapshot is a tree (a forest) when its pids are unique, so every
    process has one parent, and its parent links are acyclic. *)
Definition tree_snapshot (v : list Proc) : Prop :=
  NoDup (pid <$> v) ∧ acyclic v.

(** The part of the snapshot below [root] has no cycle. *)
Definition cycle_free_below (v : list Proc) (root : N) : Prop :=
  ∀ x, x = root ∨ descendant v x root → ¬ descendant v x x.

(** A chain of child links: each element is a child of the next one. *)
Inductive chain (v : list Proc) : list N → Prop :=
  | chain_one x : chain v [x]
  | chain_cons x y l : child v x y → chain v (y :: l) → chain v (x :: y :: l).

(** The snapshot of the specification's example, A -> [B, C] and B -> [D],
    with A = 10, B = 20, C = 30, D = 40, and A started by a process 1 that
    is gone. *)
Definition example_tree : list Proc :=
  [mkProc 10 1 [] [] 0; mkProc 20 10 [] [] 0; mkProc 30 10 [] [] 0;
   mkProc 40 20 [] [] 0].

(** The System Idle Process as ToolHelp lists it: pid 0, parent pid 0. *)
Definition idle_snapshot : list Proc := [mkProc 0 0 [] [] 0].

(** ** Filter engine *)

(** [std::wstring::find(needle)] from position 0: the lowest index at which
    [needle] occurs in [hay]; [None] stands for [npos].  The empty needle is
    found at index 0 of every string. *)
Fixpoint starts_with (needle hay : wstring) : bool :=
  match needle, hay with
  | [], _ => true
  | _ :: _, [] => false
  | a :: needle', b :: hay' => bool_decide (a = b) && starts_with needle' hay'
  end.

Fixpoint find (hay needle : wstring) : option nat :=
  if starts_with needle hay then Some 0%nat
  else match hay with
       | [] => None
       | _ :: hay' => S <$> find hay' needle
       end.

(** The application state [g] that the core reads and writes: the last
    snapshot, the filtered view and the search text.  (The window handles
    of [AppState] belong to the graphical shell.) *)
Record AppState := mkAppState {
  g_all : list Proc;
  g_filtered : list Proc;
  g_filter : wstring
}.

Section filter.
(** [towlower] is the C library's, and depends on the locale: any function
    on code units. *)
Variable towlower : wchar_t → wchar_t.

Definition ToLower (s : wstring) : wstring := towlower <$> s.

Definition IContains (hay needle : wstring) : bool :=
  bool_decide (find (ToLower hay) (ToLower needle) ≠ None).

(** One turn of the loop of [ApplyFilter]. *)
Definition ApplyFilter_step (g : AppState) (p : Proc) : AppState :=
  if IContains (name p) (g_filter g) || IContains (path p) (g_filter g)
  then mkAppState (g_all g) (g_filtered g ++ [p]) (g_filter g)
  else g.

Definition ApplyFilter (g : AppState) : AppState :=
  let g := mkAppState (g_all g) [] (g_filter g) in
  match g_filter g with
  | [] => mkAppState (g_all g) (g_all g) (g_filter g)
  | _ :: _ => foldl ApplyFilter_step g (g_all g)
  end.

(** [applyFilter(snapshot, query)] of the specification: the filtered view
    after [ApplyFilter] ran on that snapshot and that search text. *)
Definition applyFilter (snapshot : list Proc) (query : wstring) : list Proc :=
  g_filtered (ApplyFilter (mkAppState snapshot [] query)).

(** The specification's words: [q] occurs in [s] as a substring, up to the
    case fold of each character. *)
Definition ci_substring (q s : wstring) : Prop :=
  ∃ pre mid post,
    s = pre ++ mid ++ post ∧ Forall2 (λ a b, towlower a = towlower b) mid q.

Definition matches_query (q : wstring) (p : Proc) : Prop :=
  ci_substring q (name p) ∨ ci_substring q (path p).

End filter.

(** A [towlower] for the examples: the upper case letters of ASCII fold to
    lower case, every other code unit is kept. *)
Definition ascii_towlower (c : N) : N :=
  if decide (65 ≤ c ≤ 90)%N then (c + 32)%N else c.

(** ** Victim set of the action engine *)

(** The first loop of [ActOnSelection]: every selected pid, or its whole
    subtree when the Tree box is checked, appended to [victims]. *)
Definition CollectVictims (fuel : nat) (tree : bool) (ch : gmap N (list N))
    (pids : list N) : option (list N) :=
  foldl (λ acc pid,
           victims ← acc;
           if tree then CollectTree fuel pid ch victims
           else Some (victims ++ [pid]))
        (Some []) pids.

(** [std::sort] on a vector of [DWORD]s: ascending.  The order is total, so
    the sorted vector does not depend on the sorting algorithm. *)
Definition sort (l : list N) : list N := merge_sort N.le l.

(** [std::unique]: of every run of equal neighbours the first is kept. *)
Fixpoint unique_from (x : N) (l : list N) : list N :=
  match l with
  | [] => [x]
  | y :: l' => if decide (x = y) then unique_from x l' else x :: unique_from y l'
  end.

Definition unique (l : list N) : list N :=
  match l with
  | [] => []
  | x :: l' => unique_from x l'
  end.

(** [victims] after [std::sort] and [erase(std::unique(...))]. *)
Definition victims_of (fuel : nat) (tree : bool) (all : list Proc)
    (pids : list N) : option (list N) :=
  raw ← CollectVictims fuel tree (BuildChildren all) pids;
  Some (unique (sort raw)).

(** ** The operating system *)

(** The fields of [PROCESSENTRY32W] that [Snapshot] reads. *)
Record PROCESSENTRY32W := mkPE {
  th32ProcessID : DWORD;
  th32ParentProcessID : DWORD;
  szExeFile : wstring
}.

(** Access rights of [OpenProcess] ([winnt.h]; [PROCESS_SUSPEND_RESUME] is
    also defined by the program itself). *)
Definition PROCESS_TERMINATE : N := 0x0001.
Definition PROCESS_VM_READ : N := 0x0010.
Definition PROCESS_QUERY_INFORMATION : N := 0x0400.
Definition PROCESS_SUSPEND_RESUME : N := 0x0800.

(** Every call the core makes into the system, as it appears in a trace. *)
Inductive Event :=
  | EvCreateToolhelp32Snapshot
  | EvOpenProcess (access : N) (pid : DWORD) (res : option HANDLE)
  | EvQueryFullProcessImageNameW (h : HANDLE)
  | EvGetProcessMemoryInfo (h : HANDLE)
  | EvTerminateProcess (h : HANDLE) (exit_code : N)
  | EvNtSuspendProcess (h : HANDLE)
  | EvNtResumeProcess (h : HANDLE)
  | EvCloseHandle (h : HANDLE).

#[global] Instance Event_eq_dec : EqDecision Event.
Proof. solve_decision. Defined.

(** The system is a state [World] and one transition per primitive.  A
    failed call is [None] (a null handle, a zero [BOOL]).  The ToolHelp
    snapshot is the finite list of entries that [Process32FirstW] and
    [Process32NextW] enumerate, together with its handle. *)
Record OS (World : Type) := mkOS {
  os_CreateToolhelp32Snapshot :
    World → option (HANDLE * list PROCESSENTRY32W) * World;
  os_OpenProcess : N → DWORD → World → option HANDLE * World;
  os_QueryFullProcessImageNameW : HANDLE → World → option wstring * World;
  os_GetProcessMemoryInfo : HANDLE → World → option SIZE_T * World;
  os_TerminateProcess : HANDLE → N → World → bool * World;
  os_CloseHandle : HANDLE → World → World;
  (** [GetModuleHandleW] of ntdll.dll, then [GetProcAddress] by name:
      1 for NtSuspendProcess, 2 for NtResumeProcess.  The function behind
      the pointer returns an NTSTATUS. *)
  os_ntdll : option (positive → option (HANDLE → World → Z * World))
}.
Arguments mkOS {World}.
Arguments os_CreateToolhelp32Snapshot {World}.
Arguments os_OpenProcess {World}.
Arguments os_QueryFullProcessImageNameW {World}.
Arguments os_GetProcessMemoryInfo {World}.
Arguments os_TerminateProcess {World}.
Arguments os_CloseHandle {World}.
Arguments os_ntdll {World}.

(** The globals [pNtSuspendProcess] and [pNtResumeProcess]: [None] is the
    null pointer. *)
Record NtFunctions (World : Type) := mkNt {
  pNtSuspendProcess : option (HANDLE → World → Z * World);
  pNtResumeProcess : option (HANDLE → World → Z * World)
}.
Arguments mkNt {World}.
Arguments pNtSuspendProcess {World}.
Arguments pNtResumeProcess {World}.

(** What [ActOnSelection] shows in its message box. *)
Inductive Shown :=
  | SelectRowsFirst
  | ActionResult (ok fail : Z).

Section system.
Context {World : Type}.
Variable os : OS World.

(** A computation reads and changes the world and emits the events of the
    calls it made, oldest first. *)
Definition M (A : Type) : Type := World → A * World * list Event.

#[global] Instance M_ret : MRet M := λ A a w, (a, w, []).

#[global] Instance M_bind : MBind M := λ A B k m w,
  let '(a, w1, e1) := m w in
  let '(b, w2, e2) := k a w1 in
  (b, w2, e1 ++ e2).

Definition CreateToolhelp32Snapshot : M (option (HANDLE * list PROCESSENTRY32W)) :=
  λ w, let '(r, w') := os_CreateToolhelp32Snapshot os w in
       (r, w', [EvCreateToolhelp32Snapshot]).

Definition OpenProcess (access : N) (pid : DWORD) : M (option HANDLE) :=
  λ w, let '(r, w') := os_OpenProcess os access pid w in
       (r, w', [EvOpenProcess access pid r]).

Definition QueryFullProcessImageNameW (h : HANDLE) : M (option wstring) :=
  λ w, let '(r, w') := os_QueryFullProcessImageNameW os h w in
       (r, w', [EvQueryFullProcessImageNameW h]).

Definition GetProcessMemoryInfo (h : HANDLE) : M (option SIZE_T) :=
  λ w, let '(r, w') := os_GetProcessMemoryInfo os h w in
       (r, w', [EvGetProcessMemoryInfo h]).

Definition TerminateProcess (h : HANDLE) (exit_code : N) : M bool :=
  λ w, let '(r, w') := os_TerminateProcess os h exit_code w in
       (r, w', [EvTerminateProcess h exit_code]).

Definition CloseHandle (h : HANDLE) : M unit :=
  λ w, (tt, os_CloseHandle os h w, [EvCloseHandle h]).

Definition NtSuspendProcess (f : HANDLE → World → Z * World) (h : HANDLE) : M Z :=
  λ w, let '(st, w') := f h w in (st, w', [EvNtSuspendProcess h]).

Definition NtResumeProcess (f : HANDLE → World → Z * World) (h : HANDLE) : M Z :=
  λ w, let '(st, w') := f h w in (st, w', [EvNtResumeProcess h]).

(** [LoadNtFunctions], run once from [WM_CREATE]. *)
Definition LoadNtFunctions : NtFunctions World :=
  match os_ntdll os with
  | None => mkNt None None
  | Some GetProcAddress => mkNt (GetProcAddress 1%positive) (GetProcAddress 2%positive)
  end.

(** *** Snapshot *)

(** The body of the second loop of [Snapshot], for one record. *)
Definition Enrich (p : Proc) : M Proc :=
  if decide (pid p = 0%N) then mret p
  else
    h ← OpenProcess (N.lor PROCESS_QUERY_INFORMATION PROCESS_VM_READ) (pid p);
    match h with
    | None => mret p
    | Some h =>
        q ← QueryFullProcessImageNameW h;
        let p1 := match q with
                  | Some s => mkProc (pid p) (ppid p) (name p) s (rss p)
                  | None => p
                  end in
        m ← GetProcessMemoryInfo h;
        let p2 := match m with
                  | Some ws => mkProc (pid p1) (ppid p1) (name p1) (path p1) ws
                  | None => p1
                  end in
        CloseHandle h;;
        mret p2
    end.

Fixpoint EnrichAll (v : list Proc) : M (list Proc) :=
  match v with
  | [] => mret []
  | p :: v' => p' ← Enrich p; r ← EnrichAll v'; mret (p' :: r)
  end.

(** The record pushed by the first loop for one entry: path and rss are
    default-initialised. *)
Definition Proc_of_entry (pe : PROCESSENTRY32W) : Proc :=
  mkProc (th32ProcessID pe) (th32ParentProcessID pe) (szExeFile pe) [] 0.

Definition Snapshot : M (list Proc) :=
  snap ← CreateToolhelp32Snapshot;
  match snap with
  | None => mret []
  | Some (h, entries) =>
      CloseHandle h;;
      EnrichAll (Proc_of_entry <$> entries)
  end.

(** The world in which the second loop of [Snapshot] reaches record [i]:
    the snapshot handle [h] is closed and the records before [i] have been
    enriched. *)
Definition world_before (h : HANDLE) (entries : list PROCESSENTRY32W)
    (w1 : World) (i : nat) : World :=
  (EnrichAll (Proc_of_entry <$> take i entries) (os_CloseHandle os h w1)).1.2.

(** *** Terminate, suspend, resume *)

Definition TerminatePid (pid : DWORD) : M bool :=
  h ← OpenProcess PROCESS_TERMINATE pid;
  match h with
  | None => mret false
  | Some h => ok ← TerminateProcess h 1; CloseHandle h;; mret ok
  end.

Definition SuspendPid (nt : NtFunctions World) (pid : DWORD) : M bool :=
  match pNtSuspendProcess nt with
  | None => mret false
  | Some f =>
      h ← OpenProcess (N.lor PROCESS_SUSPEND_RESUME PROCESS_QUERY_INFORMATION) pid;
      match h with
      | None => mret false
      | Some h => st ← NtSuspendProcess f h; CloseHandle h;; mret (bool_decide (st = 0%Z))
      end
  end.

Definition ResumePid (nt : NtFunctions World) (pid : DWORD) : M bool :=
  match pNtResumeProcess nt with
  | None => mret false
  | Some f =>
      h ← OpenProcess (N.lor PROCESS_SUSPEND_RESUME PROCESS_QUERY_INFORMATION) pid;
      match h with
      | None => mret false
      | Some h => st ← NtResumeProcess f h; CloseHandle h;; mret (bool_decide (st = 0%Z))
      end
  end.

(** *** The action loop *)

(** The body of the loop of [ActOnSelection]: 1 = kill, 2 = suspend,
    3 = resume; any other action leaves [res] false. *)
Definition ActOnPid (nt : NtFunctions World) (action : Z) (pid : DWORD) : M bool :=
  if decide (action = 1%Z) then TerminatePid pid
  else if decide (action = 2%Z) then SuspendPid nt pid
  else if decide (action = 3%Z) then ResumePid nt pid
  else mret false.

(** The loop over the victims, in the order [its] in which the reverse
    iterators visit them; [ok] and [fail] are the two counters.  They
    are C [int]s, and stay below 2^31 as long as there are fewer victims
    than that (see [ActLoop_counts]); they are mathematical integers
    here. *)
Fixpoint ActLoop (nt : NtFunctions World) (action : Z) (its : list N)
    (ok fail : Z) : M (Z * Z) :=
  match its with
  | [] => mret (ok, fail)
  | pid :: its' =>
      res ← ActOnPid nt action pid;
      if res : bool then ActLoop nt action its' (ok + 1)%Z fail
      else ActLoop nt action its' ok (fail + 1)%Z
  end.

(** The turns of the loop over [its], started in the world [w]: each pid
    with the world in which the loop reaches it, which is the world that the
    body left on the pid before. *)
Fixpoint turns (nt : NtFunctions World) (action : Z) (its : list N)
    (w : World) : list (N * World) :=
  match its with
  | [] => []
  | pid :: its' => (pid, w) :: turns nt action its' (ActOnPid nt action pid w).1.2
  end.

(** What the body of the loop returns in a turn, the world it leaves and
    the calls it makes. *)
Definition turn_result (nt : NtFunctions World) (action : Z) (t : N * World) : bool :=
  (ActOnPid nt action t.1 t.2).1.1.



(** [ActOnSelection].  [pids] is what [GetSelectedPids] returned, [tree] the
    state of the Tree check box and [all] the snapshot [g.all].  The result
    is [None] when the traversal of [CollectTree] does not return within
    [fuel] frames; that happens before any call into the system. *)
Definition ActOnSelection (fuel : nat) (nt : NtFunctions World) (all : list Proc)
    (pids : list N) (tree : bool) (action : Z) : option (M Shown) :=
  match pids with
  | [] => Some (mret SelectRowsFirst)
  | _ :: _ =>
      victims ← victims_of fuel tree all pids;
      Some ('(ok, fail) ← ActLoop nt action (reverse victims) 0%Z 0%Z;
            mret (ActionResult ok fail))
  end.

(** Whether the loop body gets as far as [OpenProcess] for this action:
    always for kill, for suspend and resume when the pointer is set, never
    for another action code. *)
Definition reaches_OpenProcess (nt : NtFunctions World) (action : Z) : bool :=
  if decide (action = 1%Z) then true
  else if decide (action = 2%Z) then
    match pNtSuspendProcess nt with Some _ => true | None => false end
  else if decide (action = 3%Z) then
    match pNtResumeProcess nt with Some _ => true | None => false end
  else false.

(** The pids of the [OpenProcess] calls of a trace, in order. *)
Definition opened (evs : list Event) : list N :=
  omap (λ e, match e with EvOpenProcess _ pid _ => Some pid | _ => None end) evs.

(** A trace without any call that acts on a process. *)
Definition no_action_call (evs : list Event) : Prop :=
  ∀ e, e ∈ evs →
    match e with
    | EvTerminateProcess _ _ | EvNtSuspendProcess _ | EvNtResumeProcess _ => False
    | _ => True
    end.

End system.

(** *** A small system for the examples *)

(** The world is the list of the pids terminated so far.  A handle is the
    pid it was opened on.  [OpenProcess] is refused on the pids of [denied]
    and on a terminated pid; every other call succeeds.  ntdll exports the
    two functions when [with_nt] is set. *)
Definition demo_os (denied : list N) (with_nt : bool) : OS (list N) :=
  mkOS
    (λ w, (Some (4242%N, [mkPE 0 0 [73]; mkPE 4 0 [83]; mkPE 8 4 [65]; mkPE 12 4 [66]]%N), w))
    (λ access p w,
       (if decide (p ∈ denied ∨ p ∈ w) then None else Some p, w))
    (λ h w, (Some [67; 58; 92; 97]%N, w))
    (λ h w, (Some 4096%N, w))
    (λ h exit_code w, (true, h :: w))
    (λ h w, w)
    (if with_nt then Some (λ _, Some (λ h w, (0%Z, w))) else None).

(** ** Handle discipline *)

(** A trace keeps the handle discipline when process handles are used like
    brackets: [cur] is the handle that is open; [OpenProcess] is called
    only while none is open; a query, [TerminateProcess], the two ntdll
    calls and [CloseHandle] are made on the open handle only; and at the
    end none is left open. *)
Fixpoint handles_ok (cur : option HANDLE) (evs : list Event) : bool :=
  match evs with
  | [] => bool_decide (cur = None)
  | e :: evs' =>
      match e, cur with
      | EvOpenProcess _ _ res, None => handles_ok res evs'
      | EvCloseHandle h, Some h' => bool_decide (h = h') && handles_ok None evs'
      | EvQueryFullProcessImageNameW h, Some h'
      | EvGetProcessMemoryInfo h, Some h'
      | EvTerminateProcess h _, Some h'
      | EvNtSuspendProcess h, Some h'
      | EvNtResumeProcess h, Some h' =>
          bool_decide (h = h') && handles_ok cur evs'
      | _, _ => false
      end
  end.

(** The events that an action may produce: kill opens with
    [PROCESS_TERMINATE] and terminates with exit code 1; suspend and resume
    open with [PROCESS_SUSPEND_RESUME | PROCESS_QUERY_INFORMATION] and make
    their own ntdll call; every one closes its handle. *)
Definition event_of_action (action : Z) (e : Event) : Prop :=
  match e with
  | EvOpenProcess access _ _ =>
      (action = 1%Z ∧ access = PROCESS_TERMINATE) ∨
      ((action = 2%Z ∨ action = 3%Z) ∧
       access = N.lor PROCESS_SUSPEND_RESUME PROCESS_QUERY_INFORMATION)
  | EvTerminateProcess _ code => action = 1%Z ∧ code = 1%N
  | EvNtSuspendProcess _ => action = 2%Z
  | EvNtResumeProcess _ => action = 3%Z
  | EvCloseHandle _ => action = 1%Z ∨ action = 2%Z ∨ action = 3%Z
  | _ => False
  end.

(** The events of the second loop of [Snapshot]: a process other than the
    idle process is opened for query only, queried and closed. *)
Definition snapshot_event (e : Event) : Prop :=
  match e with
  | EvOpenProcess access p _ =>
      access = N.lor PROCESS_QUERY_INFORMATION PROCESS_VM_READ ∧ p ≠ 0%N
  | EvQueryFullProcessImageNameW _ | EvGetProcessMemoryInfo _ | EvCloseHandle _ => True
  | _ => False
  end.

(** ** Refresh: the order of the rows *)

(** [operator<] of [std::wstring]: lexicographic on the code units; a
    proper prefix is smaller. *)
Fixpoint wstring_lt (a b : wstring) : bool :=
  match a, b with
  | _, [] => false
  | [], _ :: _ => true
  | x :: a', y :: b' =>
      if decide (x < y)%N then true
      else if decide (y < x)%N then false
      else wstring_lt a' b'
  end.

(** The comparator that [RefreshData] gives to [std::sort]: larger working
    set first, then by name. *)
Definition by_rss_then_name (a b : Proc) : bool :=
  if decide (rss a ≠ rss b) then bool_decide (rss b < rss a)%N
  else wstring_lt (name a) (name b).

(** What [std::sort] guarantees for a comparator [comp]: no element is
    followed by one that [comp] puts before it. *)
Definition sorted_by (comp : Proc → Proc → bool) (l : list Proc) : Prop :=
  StronglySorted (λ a b, comp b a = false) l.

Section refresh.
Context {World : Type}.
Variable os : OS World.
Variable towlower : wchar_t → wchar_t.

(** [RefreshData] on the application state: [g.all] becomes the snapshot,
    sorted; [ApplyFilter] rebuilds the view.  [std::sort] is free in the
    order of the records that the comparator does not tell apart, so
    [RefreshData] is a relation between the state before and a state
    after.  (The list view is redrawn from [g.filtered]; it belongs to the
    graphical shell.) *)
Definition RefreshData (g : AppState) (w : World) (g' : AppState) (w' : World) : Prop :=
  ∃ sorted,
    sorted ≡ₚ (Snapshot os w).1.1 ∧
    sorted_by by_rss_then_name sorted ∧
    g' = ApplyFilter towlower (mkAppState sorted (g_filtered g) (g_filter g)) ∧
    w' = (Snapshot os w).1.2.

End refresh.

(** ** Export: the JSON and CSV text *)

(** The code units of a wide string literal that has no quote and no
    backslash in it; [DQ] and [BS] are the quote and the backslash. *)
Definition L (s : string) : wstring :=
  Ascii.N_of_ascii <$> String.list_ascii_of_string s.
Definition DQ : N := 34.
Definition BS : N := 92.
Definition LF : N := 10.
Definition COMMA : N := 44.

Fixpoint dec_codes (d : Decimal.uint) : wstring :=
  match d with
  | Decimal.Nil => []
  | Decimal.D0 d => 48%N :: dec_codes d
  | Decimal.D1 d => 49%N :: dec_codes d
  | Decimal.D2 d => 50%N :: dec_codes d
  | Decimal.D3 d => 51%N :: dec_codes d
  | Decimal.D4 d => 52%N :: dec_codes d
  | Decimal.D5 d => 53%N :: dec_codes d
  | Decimal.D6 d => 54%N :: dec_codes d
  | Decimal.D7 d => 55%N :: dec_codes d
  | Decimal.D8 d => 56%N :: dec_codes d
  | Decimal.D9 d => 57%N :: dec_codes d
  end.

(** [operator<<] of an unsigned integer on a stream in its initial state:
    decimal, without sign, padding or digit grouping. *)
Definition put_dec (n : N) : wstring := dec_codes (N.to_uint n).

Fixpoint hex_codes (d : Hexadecimal.uint) : wstring :=
  match d with
  | Hexadecimal.Nil => []
  | Hexadecimal.D0 d => 48%N :: hex_codes d
  | Hexadecimal.D1 d => 49%N :: hex_codes d
  | Hexadecimal.D2 d => 50%N :: hex_codes d
  | Hexadecimal.D3 d => 51%N :: hex_codes d
  | Hexadecimal.D4 d => 52%N :: hex_codes d
  | Hexadecimal.D5 d => 53%N :: hex_codes d
  | Hexadecimal.D6 d => 54%N :: hex_codes d
  | Hexadecimal.D7 d => 55%N :: hex_codes d
  | Hexadecimal.D8 d => 56%N :: hex_codes d
  | Hexadecimal.D9 d => 57%N :: hex_codes d
  | Hexadecimal.Da d => 97%N :: hex_codes d
  | Hexadecimal.Db d => 98%N :: hex_codes d
  | Hexadecimal.Dc d => 99%N :: hex_codes d
  | Hexadecimal.Dd d => 100%N :: hex_codes d
  | Hexadecimal.De d => 101%N :: hex_codes d
  | Hexadecimal.Df d => 102%N :: hex_codes d
  end.

(** [std::hex << n]: the hexadecimal digits of [n], in lower case. *)
Definition put_hex (n : N) : wstring := hex_codes (N.to_hex_uint n).

(** [std::setw(width)] with [std::setfill(fill)] on the insertion that
    follows: padded on the left up to the width. *)
Definition setw (width : nat) (fill : N) (s : wstring) : wstring :=
  replicate (width - length s) fill ++ s.

(** What one turn of the loop of [JsonEscape] inserts into the stream. *)
Definition JsonEscape_char (c : N) : wstring :=
  if decide (c = DQ) then [BS; DQ]
  else if decide (c = BS) then [BS; BS]
  else if decide (c = 8%N) then BS :: L "b"
  else if decide (c = 12%N) then BS :: L "f"
  else if decide (c = 10%N) then BS :: L "n"
  else if decide (c = 13%N) then BS :: L "r"
  else if decide (c = 9%N) then BS :: L "t"
  else if decide (c < 32)%N then BS :: L "u" ++ setw 4 48%N (put_hex c)
  else [c].

Definition JsonEscape (s : wstring) : wstring :=
  foldl (λ o c, o ++ JsonEscape_char c) [] s.

(** [CsvEscape] appends, for a quote, the literal that the source writes as
    L followed by four quote characters: two adjacent empty string
    literals, that is the empty string; every other character is appended
    as it is. *)
Definition CsvEscape (s : wstring) : wstring :=
  foldl (λ out c, out ++ (if decide (c = DQ) then [] else [c])) [] s.

(** One object of the array that [BuildJson] writes, without the comma that
    may follow it. *)
Definition BuildJson_row (p : Proc) : wstring :=
  L "{" ++ [DQ] ++ L "pid" ++ [DQ] ++ L ":" ++ put_dec (pid p) ++
  L "," ++ [DQ] ++ L "ppid" ++ [DQ] ++ L ":" ++ put_dec (ppid p) ++
  L "," ++ [DQ] ++ L "name" ++ [DQ] ++ L ":" ++ [DQ] ++ JsonEscape (name p) ++ [DQ] ++ L "," ++
  [DQ] ++ L "path" ++ [DQ] ++ L ":" ++ [DQ] ++ JsonEscape (path p) ++ [DQ] ++ L "," ++
  [DQ] ++ L "rss_bytes" ++ [DQ] ++ L ":" ++ put_dec (rss p) ++ L "}".

Definition BuildJson (v : list Proc) : wstring :=
  L "{" ++ [DQ] ++ L "processes" ++ [DQ] ++ L ":[" ++
  concat (imap (λ i p, BuildJson_row p ++
                       (if decide (i + 1 < length v) then L "," else [])) v) ++
  L "]}" ++ [LF].

(** The lambda [q] of [BuildCsv]. *)
Definition BuildCsv_q (s : wstring) : wstring := [DQ] ++ CsvEscape s ++ [DQ].

Definition BuildCsv_row (p : Proc) : wstring :=
  put_dec (pid p) ++ L "," ++ put_dec (ppid p) ++ L "," ++ put_dec (rss p) ++ L "," ++
  BuildCsv_q (name p) ++ L "," ++ BuildCsv_q (path p) ++ [LF].

Definition BuildCsv (v : list Proc) : wstring :=
  foldl (λ w p, w ++ BuildCsv_row p) (L "PID,PPID,RSS_BYTES,Name,Path" ++ [LF]) v.

(** *** The grammars the text is checked against *)

Definition is_digit (c : N) : Prop := (48 ≤ c ≤ 57)%N.
Definition is_hex_digit (c : N) : Prop :=
  (48 ≤ c ≤ 57)%N ∨ (97 ≤ c ≤ 102)%N ∨ (65 ≤ c ≤ 70)%N.

(** The characters between the quotes of a JSON string (RFC 8259, section
    7), over UTF-16 code units: an unescaped character from U+0020 on other
    than quote and backslash, a two-character escape, or a backslash, u and
    four hexadecimal digits. *)
Inductive json_chars : wstring → Prop :=
  | json_chars_nil : json_chars []
  | json_chars_plain c s :
      (32 ≤ c)%N → c ≠ DQ → c ≠ BS → json_chars s → json_chars (c :: s)
  | json_chars_escape x s :
      x ∈ [DQ; BS; 47; 98; 102; 110; 114; 116]%N → json_chars s →
      json_chars (BS :: x :: s)
  | json_chars_unicode a b c d s :
      is_hex_digit a → is_hex_digit b → is_hex_digit c → is_hex_digit d →
      json_chars s → json_chars (BS :: 117%N :: a :: b :: c :: d :: s).

(** A JSON number without sign, fraction and exponent: one or more digits,
    with a leading zero only when it is the whole number. *)
Definition json_number (s : wstring) : Prop :=
  s ≠ [] ∧ Forall is_digit s ∧ ∀ s', s = 48%N :: s' → s' = [].

(** The texts joined with a separator between them. *)
Fixpoint sep_by (sep : N) (ls : list wstring) : wstring :=
  match ls with
  | [] => []
  | [s] => s
  | s :: ls' => s ++ sep :: sep_by sep ls'
  end.

(** A JSON value without insignificant white space: a number, a string, an
    array of values, or an object of members, each a name, a colon and a
    value. *)
Inductive json_value : wstring → Prop :=
  | json_value_number s : json_number s → json_value s
  | json_value_string s : json_chars s → json_value (DQ :: s ++ [DQ])
  | json_value_array vs :
      Forall json_value vs → json_value (91%N :: sep_by COMMA vs ++ [93%N])
  | json_value_object (ms : list (wstring * wstring)) :
      Forall (λ m, json_chars m.1 ∧ json_value m.2) ms →
      json_value (123%N :: sep_by COMMA ((λ m, DQ :: m.1 ++ [DQ; 58%N] ++ m.2) <$> ms)
                  ++ [125%N]).

(** A CSV field (RFC 4180): plain text without quote, comma and line
    break, or a quoted text in which a quote only stands doubled. *)
Inductive csv_quoted_chars : wstring → Prop :=
  | csv_quoted_nil : csv_quoted_chars []
  | csv_quoted_char c s : c ≠ DQ → csv_quoted_chars s → csv_quoted_chars (c :: s)
  | csv_quoted_quote s : csv_quoted_chars s → csv_quoted_chars (DQ :: DQ :: s).

Definition csv_field (s : wstring) : Prop :=
  Forall (λ c, c ≠ DQ ∧ c ≠ COMMA ∧ c ≠ LF ∧ c ≠ 13%N) s ∨
  ∃ body, s = DQ :: body ++ [DQ] ∧ csv_quoted_chars body.

(** A CSV record: its fields with commas between them, ended by a line
    feed. *)
Definition csv_line (fields : list wstring) : wstring :=
  sep_by COMMA fields ++ [LF].

(** The five fields of the record that [BuildCsv] writes for a process. *)
Definition BuildCsv_fields (p : Proc) : list wstring :=
  [put_dec (pid p); put_dec (ppid p); put_dec (rss p);
   BuildCsv_q (name p); BuildCsv_q (path p)].

(** The members of the object that [BuildJson] writes for a process: name
    and value text. *)
Definition BuildJson_members (p : Proc) : list (wstring * wstring) :=
  [(L "pid", put_dec (pid p)); (L "ppid", put_dec (ppid p));
   (L "name", DQ :: JsonEscape (name p) ++ [DQ]);
   (L "path", DQ :: JsonEscape (path p) ++ [DQ]);
   (L "rss_bytes", put_dec (rss p))].

(** A member of a JSON object: the name in quotes, a colon, the value. *)
Definition json_member (m : wstring * wstring) : wstring :=
  DQ :: m.1 ++ [DQ; 58%N] ++ m.2.

(** The lower-case hexadecimal digit of a value below 16. *)
Definition hex_digit (d : N) : N :=
  if decide (d < 10)%N then (48 + d)%N else (87 + d)%N.

(** ** Error text *)

(** [LastErrorMessage].  [FormatMessageW err] is the buffer that the system
    allocates for the message of [err], [None] when it returns length 0 or
    no buffer. *)
Fixpoint pop_CRLF (reversed : wstring) : wstring :=
  match reversed with
  | [] => []
  | c :: rest =>
      if decide (c = 13%N ∨ c = 10%N) then pop_CRLF rest else reversed
  end.

Definition LastErrorMessage (FormatMessageW : DWORD → option wstring)
    (err : DWORD) : wstring :=
  if decide (err = 0%N) then L "OK"
  else
    let msg := match FormatMessageW err with
               | Some (c :: buf) => c :: buf
               | _ => L "(unknown)"
               end in
    reverse (pop_CRLF (reverse msg)).

(** * Properties *)

(** ** Process tree index *)

Section tree_index.
Implicit Types (v : list Proc) (ch : gmap N (list N)) (out : list N).

Lemma children_snoc v r p :
  children (v ++ [r]) p =
  children v p ++ (if decide (ppid r = p) then [pid r] else []).
Proof.
  unfold children. rewrite filter_app, fmap_app. f_equal.
  rewrite filter_cons, filter_nil. by destruct (decide (ppid r = p)).
Qed.

(** A bucket of the index holds the children of its key in snapshot order;
    a pid that is nobody's parent has no bucket. *)
Lemma BuildChildren_lookup v p :
  BuildChildren v !! p =
  match children v p with [] => None | cs => Some cs end.
Proof.
  induction v as [|r v IH] using rev_ind; [done|].
  unfold BuildChildren in *. rewrite foldl_snoc, children_snoc.
  destruct (decide (ppid r = p)) as [->|Hne].
  - rewrite lookup_insert_eq, IH.
    destruct (children v p); simpl; [done|]. by destruct (l ++ [pid r]) eqn:E; [destruct l|].
  - rewrite lookup_insert_ne by done. by rewrite app_nil_r.
Qed.

Lemma BuildChildren_lookup_Some v p cs :
  BuildChildren v !! p = Some cs → cs = children v p.
Proof. rewrite BuildChildren_lookup. destruct (children v p); naive_solver. Qed.

Lemma BuildChildren_lookup_None v p :
  BuildChildren v !! p = None ↔ p ∉ ppid <$> v.
Proof.
  rewrite BuildChildren_lookup. unfold children. split.
  - intros H Hin. apply list_elem_of_fmap in Hin as (r & -> & Hr).
    assert (r ∈ filter (λ r0, ppid r0 = ppid r) v) as Hf by (by apply list_elem_of_filter).
    destruct (filter _ v); [by apply elem_of_nil in Hf|done].
  - intros H. destruct (filter _ v) as [|r l] eqn:E; [done|]. exfalso. apply H.
    assert (r ∈ filter (λ r0, ppid r0 = p) v) as Hf by (rewrite E; left).
    apply list_elem_of_filter in Hf as [<- Hf]. apply list_elem_of_fmap. eauto.
Qed.

Lemma elem_of_children v c p : c ∈ children v p ↔ child v c p.
Proof.
  unfold children, child. rewrite list_elem_of_fmap. split.
  - intros (r & -> & Hr). apply list_elem_of_filter in Hr as [? ?]. eauto.
  - intros (r & Hr & <- & <-). exists r. split; [done|]. by apply list_elem_of_filter.
Qed.

Lemma child_pid v c p : child v c p → c ∈ pid <$> v.
Proof. intros (r & Hr & <- & _). apply list_elem_of_fmap. eauto. Qed.

(** The accumulator [out] is only appended to. *)
Lemma CollectTree_fold_acc (f : N → list N → option (list N)) cs out :
  (∀ c o, f c o = (o ++.) <$> f c []) →
  foldl (λ acc c, out' ← acc; f c out') (Some out) cs =
  (λ ls, out ++ concat ls) <$> mapM (λ c, f c []) cs.
Proof.
  intros Hf. revert out. induction cs as [|c cs IH]; intros out; simpl.
  - by rewrite app_nil_r.
  - rewrite (Hf c out). destruct (f c []) as [l|]; simpl.
    + rewrite IH. destruct (mapM _ cs); simpl; [|done]. by rewrite (assoc_L (++)).
    + clear. induction cs; simpl; auto.
Qed.

Lemma CollectTree_acc fuel pid ch out :
  CollectTree fuel pid ch out = (out ++.) <$> CollectTree fuel pid ch [].
Proof.
  revert pid out. induction fuel as [|n IH]; intros pid out; [done|]. simpl.
  destruct (ch !! pid) as [cs|]; simpl; [|done].
  rewrite !(CollectTree_fold_acc (λ c o, CollectTree n c ch o)) by (intros; apply IH).
  destruct (mapM _ cs); simpl; [|done]. by rewrite <- (assoc_L (++)).
Qed.

(** The traversal, one level unfolded: the pid, then the subtree of each
    child in bucket order. *)
Lemma CollectTree_unfold fuel pid ch :
  CollectTree (S fuel) pid ch [] =
  match ch !! pid with
  | None => Some [pid]
  | Some cs => (λ ls, pid :: concat ls) <$> mapM (λ c, CollectTree fuel c ch []) cs
  end.
Proof.
  simpl. destruct (ch !! pid) as [cs|]; [|done].
  by rewrite (CollectTree_fold_acc (λ c o, CollectTree fuel c ch o))
    by (intros; apply CollectTree_acc).
Qed.

(** More fuel does not change a result. *)
Lemma CollectTree_fuel_mono fuel fuel' pid ch out r :
  fuel ≤ fuel' → CollectTree fuel pid ch out = Some r →
  CollectTree fuel' pid ch out = Some r.
Proof.
  revert fuel' pid out r. induction fuel as [|n IH]; intros fuel' pid out r Hle; [done|].
  destruct fuel' as [|n']; [lia|]. simpl.
  destruct (ch !! pid) as [cs|]; [|done].
  generalize (out ++ [pid]). clear out. induction cs as [|c cs IHcs]; intros acc; simpl; [done|].
  destruct (CollectTree n c ch acc) as [o|] eqn:E; simpl.
  - rewrite (IH n' _ _ _ ltac:(lia) E). apply IHcs.
  - intros H. exfalso. clear -H. induction cs; simpl in *; [done|auto].
Qed.

End tree_index.

Section traversal.
Implicit Types (v : list Proc) (out : list N).

Lemma chain_descendant v x l :
  chain v (x :: l) → ∀ y, y ∈ l → descendant v x y.
Proof.
  revert x. induction l as [|z l IH]; intros x Hc y Hy; [by apply elem_of_nil in Hy|].
  inversion Hc as [|? ? ? Hxz Hzl]; subst.
  apply elem_of_cons in Hy as [->|Hy]; [by apply tc_once|].
  eapply tc_l; [done|]. by apply IH.
Qed.

Lemma chain_NoDup v l :
  (∀ x, x ∈ l → ¬ descendant v x x) → chain v l → NoDup l.
Proof.
  intros Hac. induction 1 as [x|x y l Hxy Hc IH].
  - apply NoDup_singleton.
  - apply NoDup_cons. split.
    + intros Hin. apply (Hac x); [left|]. eapply chain_descendant; [|done]. by constructor.
    + apply IH. intros z Hz. apply Hac. by right.
Qed.

(** Without a cycle below the root, a branch of the traversal is a chain
    without repetition inside the root and the pids of the snapshot, so it
    is no longer than the snapshot plus one. *)
Lemma CollectTree_terminates_chain v root :
  cycle_free_below v root →
  ∀ fuel p anc,
    chain v (p :: anc) → p :: anc ⊆ root :: (pid <$> v) →
    (∀ x, x ∈ p :: anc → rtc (child v) x root) →
    length v < fuel + length anc →
    is_Some (CollectTree fuel p (BuildChildren v) []).
Proof.
  intros Hac. induction fuel as [|n IH]; intros p anc Hc Hsub Hreach Hlen.
  - exfalso. assert (NoDup (p :: anc)) as Hnd.
    { apply (chain_NoDup v); [|done]. intros x Hx. apply Hac, rtc_tc, Hreach, Hx. }
    apply NoDup_submseteq in Hsub; [|done].
    apply submseteq_length in Hsub. simpl in Hsub. rewrite length_fmap in Hsub. lia.
  - rewrite CollectTree_unfold. destruct (BuildChildren v !! p) as [cs|] eqn:E; [|done].
    apply BuildChildren_lookup_Some in E as ->.
    apply fmap_is_Some, mapM_is_Some, Forall_forall. intros c Hin. simpl.
    apply elem_of_children in Hin. apply (IH c (p :: anc)).
    + by constructor.
    + intros x [->|Hx]%elem_of_cons; [|by apply Hsub].
      right. by eapply child_pid.
    + intros x [->|Hx]%elem_of_cons; [|by apply Hreach].
      eapply rtc_l; [done|]. apply Hreach. left.
    + simpl. lia.
Qed.

Lemma CollectTree_terminates_below v root :
  cycle_free_below v root →
  is_Some (CollectTree (S (length v)) root (BuildChildren v) []).
Proof.
  intros Hac. apply (CollectTree_terminates_chain v root Hac _ root []).
  - constructor.
  - intros x Hx. apply list_elem_of_singleton in Hx as ->. left.
  - intros x Hx. by apply list_elem_of_singleton in Hx as ->.
  - simpl. lia.
Qed.

Lemma CollectTree_terminates v root :
  acyclic v → is_Some (CollectTree (S (length v)) root (BuildChildren v) []).
Proof. intros Hac. apply CollectTree_terminates_below. intros x _. apply Hac. Qed.

Lemma tc_inv_r {A} (R : relation A) x z :
  tc R x z → ∃ y, rtc R x y ∧ R y z.
Proof.
  induction 1 as [x z H|x y z Hxy _ (y' & Hy & Hz)].
  - exists x. by split.
  - exists y'. split; [by eapply rtc_l|done].
Qed.

Lemma elem_of_concat {A} (x : A) (ls : list (list A)) :
  x ∈ concat ls ↔ ∃ l, x ∈ l ∧ l ∈ ls.
Proof.
  induction ls as [|l ls IH]; simpl.
  - split; [by intros ?%elem_of_nil|by intros (? & _ & ?%elem_of_nil)].
  - rewrite elem_of_app, IH. setoid_rewrite elem_of_cons. naive_solver.
Qed.

(** What the traversal emits: the root and its descendants, nothing else. *)
Lemma elem_of_CollectTree v fuel root out :
  CollectTree fuel root (BuildChildren v) [] = Some out →
  ∀ x, x ∈ out ↔ x = root ∨ descendant v x root.
Proof.
  revert root out. induction fuel as [|n IH]; intros root out; [done|].
  rewrite CollectTree_unfold, BuildChildren_lookup.
  assert (∀ x, descendant v x root ↔ ∃ c, c ∈ children v root ∧ (x = c ∨ descendant v x c)) as Hdesc.
  { intros x. split.
    - intros H. apply tc_inv_r in H as (c & Hxc & Hc). exists c.
      split; [by apply elem_of_children|]. by apply rtc_tc.
    - intros (c & Hc%elem_of_children & [->|Hx]); [by apply tc_once|].
      eapply tc_r; done. }
  destruct (children v root) as [|c0 cs0] eqn:E.
  - intros [= <-] x. rewrite list_elem_of_singleton, Hdesc. set_solver.
  - rewrite <- E in *. clear E c0 cs0. intros H x.
    destruct (mapM _ _) as [ls|] eqn:Em; [|done]. simpl in H. injection H as <-.
    apply mapM_Some in Em. rewrite elem_of_cons, Hdesc. apply or_iff_compat_l.
    rewrite elem_of_concat. split.
    + intros (l & Hx & Hl). apply list_elem_of_lookup in Hl as [i Hi].
      destruct (Forall2_lookup_r _ _ _ _ _ Em Hi) as (c & Hc & Hcl).
      exists c. split; [by eapply list_elem_of_lookup_2|]. by apply (IH c l).
    + intros (c & Hc & Hx). apply list_elem_of_lookup in Hc as [i Hi].
      destruct (Forall2_lookup_l _ _ _ _ _ Em Hi) as (l & Hl & Hcl).
      exists l. split; [by apply (IH c l)|]. by eapply list_elem_of_lookup_2.
Qed.

(** With unique pids every process has one parent. *)
Lemma child_parent_unique v c p p' :
  NoDup (pid <$> v) → child v c p → child v c p' → p = p'.
Proof.
  intros Hnd (r & Hr & <- & <-) (r' & Hr' & Hpid & <-).
  induction v as [|a v IH]; [by apply elem_of_nil in Hr|].
  rewrite fmap_cons in Hnd. apply NoDup_cons in Hnd as [Ha Hnd].
  apply elem_of_cons in Hr as [->|Hr], Hr' as [->|Hr']; auto.
  - exfalso. apply Ha. rewrite <- Hpid. apply list_elem_of_fmap. eauto.
  - exfalso. apply Ha. rewrite Hpid. apply list_elem_of_fmap. eauto.
Qed.

Lemma children_NoDup v p : NoDup (pid <$> v) → NoDup (children v p).
Proof.
  intros Hnd. eapply sublist_NoDup; [done|].
  unfold children. apply fmap_sublist, sublist_filter.
Qed.

Lemma tc_inv_l {A} (R : relation A) x z :
  tc R x z → ∃ y, R x y ∧ rtc R y z.
Proof.
  induction 1 as [x z H|x y z Hxy Hyz _].
  - exists z. by split.
  - exists y. split; [done|by apply tc_rtc].
Qed.

(** The ancestors of a process lie on one line. *)
Lemma ancestors_comparable v x a b :
  NoDup (pid <$> v) →
  rtc (child v) x a → rtc (child v) x b →
  rtc (child v) a b ∨ rtc (child v) b a.
Proof.
  intros Hnd Ha. revert b. induction Ha as [x|x y a Hxy Hya IH]; intros b Hb; [by left|].
  inversion Hb as [|? y' ? Hxy' Hyb]; subst.
  - right. by eapply rtc_l.
  - rewrite <- (child_parent_unique v x y y' Hnd Hxy Hxy') in Hyb. by apply IH.
Qed.

(** In a tree two different children of one parent share no descendant. *)
Lemma sibling_subtrees_disjoint v p c1 c2 x :
  tree_snapshot v → child v c1 p → child v c2 p → c1 ≠ c2 →
  rtc (child v) x c1 → rtc (child v) x c2 → False.
Proof.
  intros [Hnd Hac] H1 H2 Hne Hx1 Hx2.
  assert (∀ a b, child v a p → child v b p → tc (child v) a b → False) as Hcyc.
  { intros a b Ha Hb Hab. apply tc_inv_l in Hab as (y & Hay & Hyb).
    rewrite (child_parent_unique v a y p Hnd Hay Ha) in Hyb.
    apply (Hac p). by eapply tc_rtc_l; [|apply tc_once]. }
  destruct (ancestors_comparable v x c1 c2 Hnd Hx1 Hx2) as [H|H];
    apply rtc_tc in H as [?|H]; try done; eauto.
Qed.

Lemma Forall2_impl_elem_of {A B} (P Q : A → B → Prop) l k :
  Forall2 P l k → (∀ x y, x ∈ l → P x y → Q x y) → Forall2 Q l k.
Proof.
  induction 1 as [|x y l k Hxy _ IH]; intros HPQ; constructor.
  - apply HPQ; [left|done].
  - apply IH. intros x' y' Hx'. apply HPQ. by right.
Qed.

Lemma NoDup_CollectTree v fuel root out :
  tree_snapshot v →
  CollectTree fuel root (BuildChildren v) [] = Some out → NoDup out.
Proof.
  intros Htree. revert root out. induction fuel as [|n IH]; intros root out; [done|].
  rewrite CollectTree_unfold. destruct (BuildChildren v !! root) as [cs|] eqn:E.
  2:{ intros [= <-]. apply NoDup_singleton. }
  apply BuildChildren_lookup_Some in E as ->.
  destruct (mapM _ _) as [ls|] eqn:Em; [|done]. simpl. intros [= <-].
  apply mapM_Some in Em.
  assert (Forall2 (λ c l, child v c root ∧ NoDup l ∧
            ∀ x, x ∈ l ↔ rtc (child v) x c) (children v root) ls) as Hall.
  { eapply Forall2_impl_elem_of; [exact Em|]. intros c l Hc Hcl. simpl in Hcl.
    split; [by apply elem_of_children|]. split; [by eapply IH|].
    intros x. rewrite rtc_tc. by eapply elem_of_CollectTree. }
  pose proof (children_NoDup v root (proj1 Htree)) as Hcs. clear Em.
  apply NoDup_cons. split.
  - rewrite elem_of_concat. intros (l & Hl & Hin).
    apply list_elem_of_lookup in Hin as [i Hi].
    destruct (Forall2_lookup_r _ _ _ _ _ Hall Hi) as (c & _ & Hc & _ & Hmem).
    apply Hmem in Hl. apply (proj2 Htree root). by eapply tc_rtc_l; [|apply tc_once].
  - induction Hall as [|c l cs ls (Hc & Hl & Hmem) Hall IHall]; simpl; [constructor|].
    apply NoDup_cons in Hcs as [Hc' Hcs]. apply NoDup_app. split_and!; [done| |by apply IHall].
    intros x Hx. rewrite elem_of_concat. intros (l' & Hx' & Hin).
    apply list_elem_of_lookup in Hin as [i Hi].
    destruct (Forall2_lookup_r _ _ _ _ _ Hall Hi) as (c' & Hci & Hch & _ & Hmem').
    apply (sibling_subtrees_disjoint v root c c' x); [done..| |by apply Hmem|by apply Hmem'].
    intros ->. apply Hc'. by eapply list_elem_of_lookup_2.
Qed.

(** A snapshot in which every parent pid is smaller than the pid of its
    child has no cycle. *)
Lemma acyclic_ppid_lt v : Forall (λ r, (ppid r < pid r)%N) v → acyclic v.
Proof.
  intros Hlt.
  assert (∀ x a, descendant v x a → (a < x)%N) as H.
  { induction 1 as [x a (r & Hr & <- & <-)|x y a (r & Hr & <- & <-) _ IH].
    - by apply (proj1 (Forall_forall _ _) Hlt).
    - pose proof (proj1 (Forall_forall _ _) Hlt r Hr). simpl in *. lia. }
  intros x Hx. apply H in Hx. lia.
Qed.

(** When the traversal returns at [a], it has returned with less fuel at
    every descendant of [a]. *)
Lemma CollectTree_descendant_returns v fuel a x :
  is_Some (CollectTree fuel a (BuildChildren v) []) → descendant v x a →
  ∃ fuel', fuel' < fuel ∧ is_Some (CollectTree fuel' x (BuildChildren v) []).
Proof.
  revert a x. induction fuel as [|n IH]; intros a x Ha Hx; [by destruct Ha|].
  apply tc_inv_r in Hx as (y & Hxy & Hya).
  assert (is_Some (CollectTree n y (BuildChildren v) [])) as Hy.
  { rewrite CollectTree_unfold, BuildChildren_lookup in Ha.
    apply elem_of_children in Hya.
    destruct (children v a) as [|c cs] eqn:E; [by apply elem_of_nil in Hya|].
    apply fmap_is_Some, mapM_is_Some in Ha.
    by apply (proj1 (Forall_forall _ _) Ha y). }
  apply rtc_tc in Hxy as [->|Hxy].
  - exists n. split; [lia|done].
  - destruct (IH y x Hy Hxy) as (n' & ? & ?). exists n'. split; [lia|done].
Qed.

(** The traversal never returns at a pid that is its own descendant. *)
Lemma CollectTree_cycle_diverges v x :
  descendant v x x → ∀ fuel, CollectTree fuel x (BuildChildren v) [] = None.
Proof.
  intros Hx fuel. induction (lt_wf fuel) as [n _ IH].
  destruct (CollectTree n x (BuildChildren v) []) eqn:E; [|done].
  destruct (CollectTree_descendant_returns v n x x) as (n' & Hlt & Hn'); [by rewrite E|done|].
  rewrite (IH n' Hlt) in Hn'. by destruct Hn'.
Qed.

Lemma CollectTree_returns_cycle_free v fuel root :
  is_Some (CollectTree fuel root (BuildChildren v) []) → cycle_free_below v root.
Proof.
  intros Hr x [->|Hx] Hcyc.
  - rewrite (CollectTree_cycle_diverges v root Hcyc) in Hr. by destruct Hr.
  - destruct (CollectTree_descendant_returns v fuel root x Hr Hx) as (n' & _ & Hn').
    rewrite (CollectTree_cycle_diverges v x Hcyc) in Hn'. by destruct Hn'.
Qed.

(** C1 (as the code has it): [CollectTree] keeps no visited set.  The
    traversal from [root] returns exactly when no pid at or below [root] is
    its own descendant, and then it returns within [length v + 1] nested
    calls; in particular it returns on every snapshot whose parent links
    are acyclic. *)
Theorem resolveSubtree_terminates_iff_cycle_free (v : list Proc) (root : N) :
  ((∃ out, resolveSubtree (BuildChildren v) root out) ↔ cycle_free_below v root) ∧
  ((∃ out, resolveSubtree (BuildChildren v) root out) ↔
   is_Some (CollectTree (S (length v)) root (BuildChildren v) [])) ∧
  (acyclic v → ∃ out, resolveSubtree (BuildChildren v) root out).
Proof.
  assert (cycle_free_below v root → ∃ out, resolveSubtree (BuildChildren v) root out) as Hterm.
  { intros Hac. destruct (CollectTree_terminates_below v root Hac) as [out Hout].
    exists out, (S (length v)). done. }
  assert ((∃ out, resolveSubtree (BuildChildren v) root out) → cycle_free_below v root) as Hcf.
  { intros (out & fuel & Hout). apply (CollectTree_returns_cycle_free v fuel). by rewrite Hout. }
  split_and!.
  - by split.
  - split.
    + intros H. by apply CollectTree_terminates_below, Hcf.
    + intros [out Hout]. by exists out, (S (length v)).
  - intros Hac. apply Hterm. intros x _. apply Hac.
Qed.

(** C1 (as stated) fails: the idle process is its own parent, and the
    traversal started at pid 0 of such a snapshot never returns. *)
Lemma resolveSubtree_idle_diverges :
  ¬ ∃ out, resolveSubtree (BuildChildren idle_snapshot) 0%N out.
Proof.
  intros (out & fuel & Hout).
  assert (∀ acc, CollectTree fuel 0%N (BuildChildren idle_snapshot) acc = None) as H.
  { clear. induction fuel as [|n IH]; intros acc; [done|].
    change (CollectTree n 0%N (BuildChildren idle_snapshot) (acc ++ [0%N]) = None).
    apply IH. }
  by rewrite H in Hout.
Qed.

(** A parent pid that was reused: 8 is listed as started by 12 and 12 as
    started by 8.  The traversal returns from neither. *)
Example reused_parent_pid_diverges :
  ∀ fuel, CollectTree fuel 8%N
            (BuildChildren [mkProc 8 12 [] [] 0; mkProc 12 8 [] [] 0]) [] = None.
Proof.
  apply CollectTree_cycle_diverges. eapply tc_l; [|apply tc_once].
  - eexists. split; [left|done].
  - eexists. split; [right; left|done].
Qed.

(** C2: on a snapshot whose parent links form a tree, [CollectTree] returns;
    its output is the root followed by the output of the traversal of each
    direct child, in the order of the bucket of the index (depth first,
    root first); it has no repetition, and its elements are the root and
    the transitive descendants of the root. *)
Theorem resolveSubtree_tree (v : list Proc) (root : N) :
  tree_snapshot v →
  ∃ out,
    resolveSubtree (BuildChildren v) root out ∧
    (∃ subtrees,
       Forall2 (resolveSubtree (BuildChildren v))
               (default [] (BuildChildren v !! root)) subtrees ∧
       out = root :: concat subtrees) ∧
    NoDup out ∧
    (∀ x, x ∈ out ↔ x = root ∨ descendant v x root) ∧
    (∀ out', resolveSubtree (BuildChildren v) root out' → out' = out).
Proof.
  intros Htree.
  destruct (CollectTree_terminates v root (proj2 Htree)) as [out Hout].
  exists out. split_and!.
  - by exists (S (length v)).
  - rewrite CollectTree_unfold in Hout.
    destruct (BuildChildren v !! root) as [cs|]; simpl.
    + destruct (mapM _ cs) as [ls|] eqn:Em; [|done]. injection Hout as <-.
      exists ls. split; [|done]. apply mapM_Some in Em.
      eapply Forall2_impl; [exact Em|]. intros c l Hcl. by exists (length v).
    + injection Hout as <-. exists []. split; [constructor|done].
  - by eapply NoDup_CollectTree.
  - by eapply elem_of_CollectTree.
  - intros out' [fuel Hout'].
    destruct (Nat.le_ge_cases fuel (S (length v))) as [Hle|Hle].
    + rewrite (CollectTree_fuel_mono _ _ _ _ _ _ Hle Hout') in Hout. congruence.
    + rewrite (CollectTree_fuel_mono _ _ _ _ _ _ Hle Hout) in Hout'. congruence.
Qed.

Lemma example_tree_is_tree : tree_snapshot example_tree.
Proof.
  split.
  - refine (bool_decide_unpack _ _). vm_compute. exact I.
  - apply acyclic_ppid_lt. repeat constructor.
Qed.

(** The traversal of the example, from A, B and D. *)
Example resolveSubtree_example :
  CollectTree 3 10%N (BuildChildren example_tree) [] = Some [10; 20; 40; 30]%N ∧
  CollectTree 2 20%N (BuildChildren example_tree) [] = Some [20; 40]%N ∧
  CollectTree 1 40%N (BuildChildren example_tree) [] = Some [40]%N.
Proof. vm_compute. done. Qed.

(** C2 on the example tree, from A. *)
Lemma resolveSubtree_tree_witness :
  tree_snapshot example_tree ∧
  ∃ out,
    resolveSubtree (BuildChildren example_tree) 10%N out ∧
    (∃ subtrees,
       Forall2 (resolveSubtree (BuildChildren example_tree))
               (default [] (BuildChildren example_tree !! 10%N)) subtrees ∧
       out = 10%N :: concat subtrees) ∧
    NoDup out ∧
    (∀ x, x ∈ out ↔ x = 10%N ∨ descendant example_tree x 10%N) ∧
    (∀ out', resolveSubtree (BuildChildren example_tree) 10%N out' → out' = out).
Proof.
  split; [exact example_tree_is_tree|].
  exact (resolveSubtree_tree example_tree 10%N example_tree_is_tree).
Defined.

(** The traversal that returns and the vector it leaves are one and the
    same run. *)
Lemma CollectTree_partial_spec fuel pid (ch : gmap N (list N)) out :
  CollectTree fuel pid ch out =
  if (CollectTree_partial fuel pid ch out).2
  then Some (CollectTree_partial fuel pid ch out).1 else None.
Proof.
  revert pid out. induction fuel as [|n IH]; intros pid out; [done|]. simpl.
  destruct (ch !! pid) as [cs|]; [|done].
  generalize (out ++ [pid]). clear out.
  induction cs as [|c cs IHcs]; intros acc; simpl; [done|].
  rewrite IH. destruct (CollectTree_partial n c ch acc) as [o [|]]; simpl.
  - apply IHcs.
  - clear. induction cs as [|c' cs IHcs]; simpl; [done|]. apply IHcs.
Qed.

(** The vector only grows, and the first push of a call is its pid. *)
Lemma CollectTree_partial_prefix fuel pid (ch : gmap N (list N)) out :
  out `prefix_of` (CollectTree_partial fuel pid ch out).1 ∧
  (fuel ≠ 0 → (out ++ [pid]) `prefix_of` (CollectTree_partial fuel pid ch out).1).
Proof.
  revert pid out. induction fuel as [|n IH]; intros pid out; [done|].
  assert ((out ++ [pid]) `prefix_of` (CollectTree_partial (S n) pid ch out).1) as H.
  { simpl. destruct (ch !! pid) as [cs|]; [|done].
    assert (∀ (st : list N * bool),
              (out ++ [pid]) `prefix_of` st.1 →
              (out ++ [pid]) `prefix_of`
                (foldl (λ (acc : list N * bool) c,
                          if acc.2 then CollectTree_partial n c ch acc.1 else acc)
                       st cs).1) as Hfold.
    { induction cs as [|c cs IHcs]; intros [acc b] Hst; simpl in *; [done|].
      apply IHcs. destruct b; [|done].
      etrans; [exact Hst|]. apply IH. }
    by apply Hfold. }
  split; [|done]. etrans; [|exact H]. by apply prefix_app_r.
Qed.

(** The traversal returns exactly where the recursion is well founded. *)
Lemma CollectTree_returns_well_founded fuel (index : gmap N (list N)) p :
  is_Some (CollectTree fuel p index []) → well_founded_below index p.
Proof.
  revert p. induction fuel as [|n IH]; intros p Hp; [by destruct Hp|].
  constructor. intros cs c Hcs Hc. apply IH.
  rewrite CollectTree_unfold, Hcs in Hp.
  apply fmap_is_Some, mapM_is_Some in Hp.
  by apply (proj1 (Forall_forall _ _) Hp c).
Qed.

Lemma well_founded_below_returns (index : gmap N (list N)) p :
  well_founded_below index p → ∃ fuel, is_Some (CollectTree fuel p index []).
Proof.
  induction 1 as [p _ IH].
  destruct (index !! p) as [cs|] eqn:Hcs.
  - assert (∃ n, Forall (λ c, is_Some (CollectTree n c index [])) cs) as [n Hn].
    { specialize (IH cs). clear Hcs.
      induction cs as [|c cs IHcs]; [by exists 0|].
      destruct (IH c eq_refl) as [n1 [o1 H1]]; [left|].
      destruct IHcs as [n2 H2]; [intros c' ? Hc'; apply IH; [done|by right]|].
      exists (n1 `max` n2). constructor.
      - exists o1. apply (CollectTree_fuel_mono n1); [lia|done].
      - eapply Forall_impl; [exact H2|]. intros c' [o' H']. exists o'.
        apply (CollectTree_fuel_mono n2); [lia|done]. }
    exists (S n). rewrite CollectTree_unfold, Hcs.
    by apply fmap_is_Some, mapM_is_Some.
  - exists 1. by rewrite CollectTree_unfold, Hcs.
Qed.

(** C10: the first pid that the traversal pushes is its root, for every
    index and every root.  When the traversal returns, the vector it
    returns starts with the root; it returns exactly when the recursion
    below the root is well founded in the index, so for every root of a
    snapshot index without a cycle below it, within [length v + 1] frames;
    at a root without a bucket in the index (a pid that is the parent of no
    record, in particular a pid that the snapshot does not mention) it
    returns the one-element vector of that pid, whatever the fuel.  In a
    run that does not return the vector starts with the root all the same,
    from the first frame on. *)
Theorem CollectTree_root_first (index : gmap N (list N)) (root : N) :
  (∀ out, resolveSubtree index root out → head out = Some root) ∧
  (index !! root = None →
     resolveSubtree index root [root] ∧
     ∀ fuel, CollectTree (S fuel) root index [] = Some [root]) ∧
  (∀ v, root ∉ ppid <$> v → BuildChildren v !! root = None) ∧
  ((∃ out, resolveSubtree index root out ∧ head out = Some root) ↔
   well_founded_below index root) ∧
  (∀ v, index = BuildChildren v → cycle_free_below v root →
     ∃ out, CollectTree (S (length v)) root index [] = Some out ∧
            head out = Some root) ∧
  (∀ fuel,
     CollectTree fuel root index [] =
       (if (CollectTree_partial fuel root index []).2
        then Some (CollectTree_partial fuel root index []).1 else None) ∧
     head (CollectTree_partial (S fuel) root index []).1 = Some root).
Proof.
  assert (∀ out, resolveSubtree index root out → head out = Some root) as Hhead.
  { intros out [[|n] Hout]; [done|]. rewrite CollectTree_unfold in Hout.
    destruct (index !! root); [|by injection Hout as <-].
    destruct (mapM _ _); [|done]. by injection Hout as <-. }
  split_and!.
  - done.
  - intros Hnone.
    assert (∀ fuel, CollectTree (S fuel) root index [] = Some [root]) as H.
    { intros fuel. by rewrite CollectTree_unfold, Hnone. }
    split; [by exists 1|done].
  - intros v. apply BuildChildren_lookup_None.
  - split.
    + intros (out & [fuel Hout] & _).
      apply (CollectTree_returns_well_founded fuel). by rewrite Hout.
    + intros Hwf. destruct (well_founded_below_returns index root Hwf) as [fuel [out Hout]].
      exists out. split; [by exists fuel|]. apply Hhead. by exists fuel.
  - intros v -> Hcf. destruct (CollectTree_terminates_below v root Hcf) as [out Hout].
    exists out. split; [done|]. apply Hhead. by exists (S (length v)).
  - intros fuel. split; [apply CollectTree_partial_spec|].
    destruct (CollectTree_partial_prefix (S fuel) root index []) as [_ H].
    destruct (H ltac:(done)) as [k ->]. done.
Qed.

(** A pid that the example snapshot does not mention. *)
Example resolveSubtree_unknown_pid :
  CollectTree 1 99%N (BuildChildren example_tree) [] = Some [99%N].
Proof. vm_compute. done. Qed.

End traversal.

(** ** Filter engine *)

Lemma starts_with_spec (needle hay : list N) :
  starts_with needle hay = true ↔ ∃ post, hay = needle ++ post.
Proof.
  revert hay. induction needle as [|a needle IH]; intros [|b hay]; simpl.
  - naive_solver.
  - naive_solver.
  - split; [done|]. by intros [? ?].
  - rewrite andb_true_iff, bool_decide_eq_true, IH. naive_solver.
Qed.

(** [find] succeeds exactly when the needle occurs somewhere in the
    haystack. *)
Lemma find_spec (hay needle : list N) :
  find hay needle ≠ None ↔ ∃ pre post, hay = pre ++ needle ++ post.
Proof.
  induction hay as [|b hay IH]; simpl.
  - destruct (starts_with needle []) eqn:E.
    + apply starts_with_spec in E as [post E]. split; [|done]. intros _. by exists [], post.
    + split; [done|]. intros (pre & post & H). exfalso.
      symmetry in H. apply app_eq_nil in H as [-> H]. simpl in H.
      assert (starts_with needle [] = true) by (apply starts_with_spec; eauto).
      congruence.
  - destruct (starts_with needle (b :: hay)) eqn:E.
    + apply starts_with_spec in E as [post E]. split; [|done]. intros _. by exists [], post.
    + assert (S <$> find hay needle ≠ None ↔ find hay needle ≠ None) as ->
        by (destruct (find hay needle); naive_solver).
      rewrite IH. split.
      * intros (pre & post & ->). by exists (b :: pre), post.
      * intros ([|b' pre] & post & H); simpl in H.
        -- assert (starts_with needle (b :: hay) = true) by (apply starts_with_spec; eauto).
           congruence.
        -- injection H as -> ->. eauto.
Qed.

Section filter_correct.
Variable towlower : wchar_t → wchar_t.
Implicit Types (s q hay needle : list N) (l : list Proc).

Lemma ToLower_eq_Forall2 s q :
  ToLower towlower s = ToLower towlower q ↔
  Forall2 (λ a b, towlower a = towlower b) s q.
Proof.
  unfold ToLower. revert q. induction s as [|a s IH]; intros [|b q]; simpl.
  - split; [constructor|done].
  - split; [done|inversion 1].
  - split; [done|inversion 1].
  - rewrite Forall2_cons, <- IH. split; [by intros [= ? ?]|intros [? ?]; by f_equal].
Qed.

(** [IContains] decides the case-insensitive substring relation. *)
Lemma IContains_spec hay needle :
  IContains towlower hay needle = true ↔ ci_substring towlower needle hay.
Proof.
  unfold IContains, ci_substring. rewrite bool_decide_eq_true, find_spec. split.
  - intros (pre & post & H). unfold ToLower in H.
    apply fmap_app_inv in H as (l1 & l2 & -> & H & ->).
    symmetry in H. apply fmap_app_inv in H as (mid & l3 & Hmid & -> & ->).
    exists l1, mid, l3. split; [done|]. by apply ToLower_eq_Forall2.
  - intros (pre & mid & post & -> & Hmid). apply ToLower_eq_Forall2 in Hmid.
    exists (ToLower towlower pre), (ToLower towlower post).
    unfold ToLower in *. by rewrite !fmap_app, Hmid.
Qed.

#[global] Instance ci_substring_dec q s : Decision (ci_substring towlower q s).
Proof.
  refine (cast_if (decide (IContains towlower s q = true)));
    abstract (by rewrite <- IContains_spec).
Defined.

#[global] Instance matches_query_dec q p : Decision (matches_query towlower q p).
Proof. unfold matches_query. apply _. Defined.

Lemma ApplyFilter_loop g l :
  foldl (ApplyFilter_step towlower) g l =
  mkAppState (g_all g)
    (g_filtered g ++ filter (matches_query towlower (g_filter g)) l) (g_filter g).
Proof.
  revert g. induction l as [|p l IH]; intros g; simpl.
  - rewrite filter_nil, app_nil_r. by destruct g.
  - rewrite IH. unfold ApplyFilter_step.
    destruct (IContains towlower (name p) (g_filter g) ||
              IContains towlower (path p) (g_filter g)) eqn:E; simpl.
    + rewrite filter_cons_True, <- (assoc_L (++)); [done|].
      apply orb_true_iff in E. unfold matches_query. by rewrite <- !IContains_spec.
    + rewrite filter_cons_False; [done|].
      apply orb_false_iff in E as [E1 E2]. unfold matches_query.
      rewrite <- !IContains_spec. intros [?|?]; congruence.
Qed.

Lemma ci_substring_nil s : ci_substring towlower [] s.
Proof. exists [], [], s. split; [done|constructor]. Qed.

Lemma applyFilter_filter l q :
  applyFilter towlower l q = filter (matches_query towlower q) l.
Proof.
  unfold applyFilter, ApplyFilter. simpl. destruct q as [|c q'].
  - simpl. induction l as [|p l IH]; [done|].
    rewrite filter_cons_True, <- IH; [done|]. left. apply ci_substring_nil.
  - by rewrite ApplyFilter_loop.
Qed.

(** C7: the empty query keeps the snapshot as it is; every query keeps
    exactly the records that it matches, in the order of the snapshot; and
    filtering twice with one query is filtering once. *)
Theorem applyFilter_correct (snapshot : list Proc) (q : list N)
    (dec : ∀ p, Decision (matches_query towlower q p)) :
  applyFilter towlower snapshot [] = snapshot ∧
  applyFilter towlower snapshot q =
    @filter _ _ _ (matches_query towlower q) dec snapshot ∧
  applyFilter towlower (applyFilter towlower snapshot q) q =
    applyFilter towlower snapshot q.
Proof.
  split_and!.
  - done.
  - rewrite applyFilter_filter. by apply list_filter_iff.
  - rewrite !applyFilter_filter. by apply list_filter_filter_r.
Qed.

End filter_correct.

(** ** Victim set: sort and unique *)

Section victims.
Implicit Types (l raw : list N).

Lemma sort_StronglySorted l : StronglySorted N.le (sort l).
Proof.
  apply (StronglySorted_merge_sort N.le); apply _.
Qed.

Lemma sort_Permutation l : sort l ≡ₚ l.
Proof. apply merge_sort_Permutation. Qed.

(** [std::sort] leaves the implementation free, but on integers there is
    one ascending arrangement of a vector. *)
Lemma sort_unique_result l l' : Sorted N.le l' → l' ≡ₚ l → l' = sort l.
Proof.
  intros Hs Hp. apply (Sorted_unique N.le).
  - done.
  - apply StronglySorted_Sorted, sort_StronglySorted.
  - by rewrite sort_Permutation.
Qed.

Lemma unique_from_spec x l :
  StronglySorted N.le (x :: l) →
  StronglySorted N.lt (unique_from x l) ∧
  (∀ y, y ∈ unique_from x l ↔ y ∈ x :: l) ∧
  (∀ y, y ∈ unique_from x l → (x ≤ y)%N).
Proof.
  revert x. induction l as [|y l IH]; intros x Hs; simpl.
  - split_and!; [repeat constructor|done|].
    intros y Hy. apply list_elem_of_singleton in Hy as ->. lia.
  - apply StronglySorted_inv in Hs as [Hs Hx].
    apply Forall_cons in Hx as [Hxy Hx].
    destruct (decide (x = y)) as [->|Hne].
    + destruct (IH y Hs) as (H1 & H2 & H3). split_and!; [done| |done].
      intros z. rewrite H2, !elem_of_cons. naive_solver.
    + destruct (IH y Hs) as (H1 & H2 & H3). split_and!.
      * constructor; [done|]. apply Forall_forall. intros z Hz.
        apply H3 in Hz. lia.
      * intros z. rewrite !elem_of_cons, H2, elem_of_cons. done.
      * intros z [->|Hz]%elem_of_cons; [lia|]. apply H3 in Hz. lia.
Qed.

Lemma unique_sorted l :
  StronglySorted N.le l →
  StronglySorted N.lt (unique l) ∧ ∀ y, y ∈ unique l ↔ y ∈ l.
Proof.
  destruct l as [|x l]; simpl; [by split; [constructor|]|].
  intros Hs. destruct (unique_from_spec x l Hs) as (? & ? & _). done.
Qed.

Lemma StronglySorted_lt_NoDup l : StronglySorted N.lt l → NoDup l.
Proof.
  induction 1 as [|x l _ IH Hx]; constructor; [|done].
  intros Hin. apply (proj1 (Forall_forall _ _) Hx) in Hin. lia.
Qed.

Lemma StronglySorted_rev l :
  StronglySorted N.lt l → StronglySorted (λ a b, (b < a)%N) (reverse l).
Proof.
  induction 1 as [|x l _ IH Hx]; [constructor|]. rewrite reverse_cons.
  apply StronglySorted_app_2; [|done|repeat constructor].
  intros a b Ha Hb. apply list_elem_of_singleton in Hb as ->.
  rewrite elem_of_reverse in Ha. by apply (proj1 (Forall_forall _ _) Hx).
Qed.

(** The victims after sort and unique: strictly ascending, hence without
    repetition, with the elements of the raw vector. *)
Lemma sort_unique_spec raw :
  StronglySorted N.lt (unique (sort raw)) ∧
  NoDup (unique (sort raw)) ∧
  ∀ x, x ∈ unique (sort raw) ↔ x ∈ raw.
Proof.
  destruct (unique_sorted (sort raw) (sort_StronglySorted raw)) as [Hs Hm].
  split_and!; [done|by apply StronglySorted_lt_NoDup|].
  intros x. by rewrite Hm, sort_Permutation.
Qed.

(** The raw victims with the Tree box checked: the subtrees of the selected
    pids, one after the other. *)
Lemma CollectVictims_tree fuel ch pids :
  CollectVictims fuel true ch pids =
  (λ ls, concat ls) <$> mapM (λ p, CollectTree fuel p ch []) pids.
Proof.
  unfold CollectVictims.
  by rewrite (CollectTree_fold_acc (λ c o, CollectTree fuel c ch o))
    by (intros; apply CollectTree_acc).
Qed.

Lemma CollectVictims_direct fuel ch pids :
  CollectVictims fuel false ch pids = Some pids.
Proof.
  unfold CollectVictims.
  assert (∀ acc, foldl (λ acc p, victims ← acc; Some (victims ++ [p])) (Some acc) pids
                 = Some (acc ++ pids)) as H.
  { induction pids as [|p pids IH]; intros acc; simpl; [by rewrite app_nil_r|].
    by rewrite IH, <- (assoc_L (++)). }
  apply (H []).
Qed.

(** The elements of the victim set: the selected pids, and with the Tree
    box checked their descendants too. *)
Lemma elem_of_victims fuel tree all pids victims :
  victims_of fuel tree all pids = Some victims →
  ∀ x, x ∈ victims ↔
       ∃ p, p ∈ pids ∧ (x = p ∨ (tree = true ∧ descendant all x p)).
Proof.
  unfold victims_of. destruct (CollectVictims _ _ _ _) as [raw|] eqn:E; [|done].
  simpl. intros [= <-] x. destruct (sort_unique_spec raw) as (_ & _ & ->).
  destruct tree.
  - rewrite CollectVictims_tree in E. destruct (mapM _ pids) as [ls|] eqn:Em; [|done].
    injection E as <-. apply mapM_Some in Em. rewrite elem_of_concat. split.
    + intros (l & Hx & Hl). apply list_elem_of_lookup in Hl as [i Hi].
      destruct (Forall2_lookup_r _ _ _ _ _ Em Hi) as (p & Hp & Hpl).
      exists p. split; [by eapply list_elem_of_lookup_2|].
      apply (elem_of_CollectTree all fuel p l Hpl) in Hx. naive_solver.
    + intros (p & Hp & Hx). apply list_elem_of_lookup in Hp as [i Hi].
      destruct (Forall2_lookup_l _ _ _ _ _ Em Hi) as (l & Hl & Hpl).
      exists l. split; [|by eapply list_elem_of_lookup_2].
      apply (elem_of_CollectTree all fuel p l Hpl). naive_solver.
  - rewrite CollectVictims_direct in E. injection E as <-. naive_solver.
Qed.

(** The victim set exists for every direct request, and for every subtree
    request on a snapshot without a cycle below the selected pids. *)
Lemma victims_of_direct fuel all pids :
  victims_of fuel false all pids = Some (unique (sort pids)).
Proof. unfold victims_of. by rewrite CollectVictims_direct. Qed.

Lemma victims_of_tree_returns all pids :
  (∀ p, p ∈ pids → cycle_free_below all p) →
  is_Some (victims_of (S (length all)) true all pids).
Proof.
  intros Hac. unfold victims_of. rewrite CollectVictims_tree.
  assert (is_Some (mapM (λ p, CollectTree (S (length all)) p (BuildChildren all) []) pids)) as [ls ->]; [|done].
  apply mapM_is_Some, Forall_forall. intros p Hp.
  by apply CollectTree_terminates_below, Hac.
Qed.

Lemma victims_of_tree_cycle_free fuel all pids :
  is_Some (victims_of fuel true all pids) →
  ∀ p, p ∈ pids → cycle_free_below all p.
Proof.
  unfold victims_of. rewrite CollectVictims_tree. intros [victims Hv] p Hp.
  destruct (mapM _ pids) as [ls|] eqn:Em; [|done]. apply mapM_Some in Em.
  apply list_elem_of_lookup in Hp as [i Hi].
  destruct (Forall2_lookup_l _ _ _ _ _ Em Hi) as (l & _ & Hl).
  apply (CollectTree_returns_cycle_free all fuel). by rewrite Hl.
Qed.

End victims.

(** ** Action engine *)

Section action_engine.
Context {World : Type}.
Variable os : OS World.
Implicit Types (nt : NtFunctions World) (w : World) (its victims pids : list N).

(** Unfold the monad and split the results of the system calls. *)
Ltac run_os :=
  unfold mbind, M_bind, mret, M_ret, OpenProcess, TerminateProcess, CloseHandle,
    NtSuspendProcess, NtResumeProcess, QueryFullProcessImageNameW,
    GetProcessMemoryInfo, CreateToolhelp32Snapshot;
  simpl;
  repeat match goal with
         | |- context [match ?x with _ => _ end] =>
             lazymatch x with
             | context [match _ with _ => _ end] => fail
             | _ => let E := fresh "E" in destruct x eqn:E; simpl
             end
         end.

Lemma TerminatePid_run p w :
  ∃ res w' evs, TerminatePid os p w = (res, w', evs) ∧ opened evs = [p].
Proof. unfold TerminatePid. run_os; eauto. Qed.

Lemma SuspendPid_run nt p w :
  ∃ res w' evs, SuspendPid os nt p w = (res, w', evs) ∧
    match pNtSuspendProcess nt with
    | Some _ => opened evs = [p]
    | None => res = false ∧ w' = w ∧ evs = []
    end.
Proof. unfold SuspendPid. destruct (pNtSuspendProcess nt); run_os; eauto 10. Qed.

Lemma ResumePid_run nt p w :
  ∃ res w' evs, ResumePid os nt p w = (res, w', evs) ∧
    match pNtResumeProcess nt with
    | Some _ => opened evs = [p]
    | None => res = false ∧ w' = w ∧ evs = []
    end.
Proof. unfold ResumePid. destruct (pNtResumeProcess nt); run_os; eauto 10. Qed.

(** One turn of the loop: [OpenProcess] is called once, on the victim, or
    not at all when the action does not reach it, and then the turn fails
    without a call. *)
Lemma ActOnPid_run nt action p w :
  ∃ res w' evs, ActOnPid os nt action p w = (res, w', evs) ∧
    if reaches_OpenProcess nt action then opened evs = [p]
    else res = false ∧ w' = w ∧ evs = [].
Proof.
  unfold ActOnPid, reaches_OpenProcess.
  destruct (decide (action = 1%Z)); [apply TerminatePid_run|].
  destruct (decide (action = 2%Z)).
  { destruct (SuspendPid_run nt p w) as (res & w' & evs & E & H).
    exists res, w', evs. split; [done|]. by destruct (pNtSuspendProcess nt). }
  destruct (decide (action = 3%Z)).
  { destruct (ResumePid_run nt p w) as (res & w' & evs & E & H).
    exists res, w', evs. split; [done|]. by destruct (pNtResumeProcess nt). }
  by exists false, w, [].
Qed.

(** The loop visits every element of [its] once, in order, whatever the
    earlier turns returned, and counts one success or one failure for
    each. *)
Lemma ActLoop_run nt action its :
  ∀ ok fail w,
  ∃ ok' fail' w' evs,
    ActLoop os nt action its ok fail w = ((ok', fail'), w', evs) ∧
    (ok' + fail' = ok + fail + Z.of_nat (length its))%Z ∧ (ok ≤ ok')%Z ∧ (fail ≤ fail')%Z ∧
    if reaches_OpenProcess nt action then opened evs = its
    else ok' = ok ∧ w' = w ∧ evs = [].
Proof.
  induction its as [|p its IH]; intros ok fail w; simpl.
  - exists ok, fail, w, []. split_and!; [done|lia|lia|lia|]. by destruct (reaches_OpenProcess _ _).
  - destruct (ActOnPid_run nt action p w) as (res & w1 & e1 & E1 & H1).
    unfold mbind, M_bind at 1. rewrite E1.
    destruct (IH (if res then (ok + 1)%Z else ok) (if res then fail else (fail + 1)%Z) w1)
      as (ok' & fail' & w' & e2 & E2 & Hsum & Hok & Hfail & H2).
    exists ok', fail', w', (e1 ++ e2). split_and!.
    + destruct res; by rewrite E2.
    + destruct res; lia.
    + destruct res; lia.
    + destruct res; lia.
    + destruct (reaches_OpenProcess nt action).
      * unfold opened in *. by rewrite omap_app, H1, H2.
      * destruct H1 as (-> & -> & ->), H2 as (-> & -> & ->). done.
Qed.

(** The counters stay within the number of victims: the C [int]s do not
    overflow while there are fewer than 2^31 of them. *)
Lemma ActLoop_counts nt action its w ok fail w' evs :
  ActLoop os nt action its 0 0 w = ((ok, fail), w', evs) →
  (0 ≤ ok ≤ Z.of_nat (length its))%Z ∧ (0 ≤ fail ≤ Z.of_nat (length its))%Z.
Proof.
  intros E. destruct (ActLoop_run nt action its 0 0 w)
    as (ok' & fail' & w'' & evs' & E' & ? & ? & ? & _).
  rewrite E in E'. injection E' as -> -> -> ->. lia.
Qed.





(** A request with a selection runs the loop over the victim set, largest
    pid first. *)
Lemma ActOnSelection_run fuel nt all pids tree action victims :
  pids ≠ [] → victims_of fuel tree all pids = Some victims →
  ActOnSelection os fuel nt all pids tree action =
  Some ('(ok, fail) ← ActLoop os nt action (reverse victims) 0%Z 0%Z;
        mret (ActionResult ok fail)).
Proof. intros Hne Hv. unfold ActOnSelection. destruct pids; [done|]. by rewrite Hv. Qed.

Lemma ActOnSelection_returns fuel nt all pids tree action :
  is_Some (ActOnSelection os fuel nt all pids tree action) ↔
  pids = [] ∨ is_Some (victims_of fuel tree all pids).
Proof.
  unfold ActOnSelection. destruct pids as [|p pids]; [by split; [left|]|].
  destruct (victims_of _ _ _ _); simpl; split; eauto.
  - intros [? ?]. done.
  - intros [?|[? ?]]; done.
Qed.

(** A request returns when the traversals it needs return: always for a
    direct request, and for a subtree request when no cycle lies below a
    selected pid. *)
Lemma ActOnSelection_total nt all pids tree action :
  (tree = true → ∀ p, p ∈ pids → cycle_free_below all p) →
  is_Some (ActOnSelection os (S (length all)) nt all pids tree action).
Proof.
  intros Hcf. apply ActOnSelection_returns. right. destruct tree.
  - by apply victims_of_tree_returns, Hcf.
  - by rewrite victims_of_direct.
Qed.

Lemma ActOnSelection_opened_NoDup fuel nt all pids tree action m :
  ActOnSelection os fuel nt all pids tree action = Some m →
  (∀ w, NoDup (opened (m w).2)) ∧
  (pids ≠ [] →
   ∃ victims,
     victims_of fuel tree all pids = Some victims ∧ NoDup victims ∧
     (∀ x, x ∈ victims ↔
           ∃ p, p ∈ pids ∧ (x = p ∨ (tree = true ∧ descendant all x p))) ∧
     (∀ w, opened (m w).2 =
           if reaches_OpenProcess nt action then reverse victims else [])).
Proof.
  intros Hm. destruct (decide (pids = [])) as [->|Hne].
  { injection Hm as <-. split; [|done]. intros w. simpl. constructor. }
  destruct (proj1 (ActOnSelection_returns fuel nt all pids tree action))
    as [?|[victims Hv]]; [by rewrite Hm|done|].
  assert (NoDup victims) as Hnd.
  { unfold victims_of in Hv. destruct (CollectVictims _ _ _ _) as [raw|]; [|done].
    injection Hv as <-. apply sort_unique_spec. }
  assert (∀ w, opened (m w).2 =
               if reaches_OpenProcess nt action then reverse victims else []) as Hop.
  { intros w. rewrite (ActOnSelection_run fuel nt all pids tree action victims Hne Hv) in Hm.
    injection Hm as <-.
    destruct (ActLoop_run nt action (reverse victims) 0 0 w)
      as (ok & fail & w' & evs & E & _ & _ & _ & H).
    unfold mbind, M_bind. rewrite E. simpl. rewrite app_nil_r.
    destruct (reaches_OpenProcess nt action); [done|]. by destruct H as (_ & _ & ->). }
  split.
  - intros w. rewrite Hop. destruct (reaches_OpenProcess nt action); [|constructor].
    by rewrite reverse_Permutation.
  - intros _. exists victims. split_and!; [done|done| |done].
    by apply (elem_of_victims fuel).
Qed.


(** C5: without a selection the request only reports that rows must be
    selected: the world is unchanged, no call is made, and the victim set
    is not computed (the request returns for every fuel, snapshot and
    action). *)
Theorem ActOnSelection_empty_selection fuel nt all tree action :
  ∃ m, ActOnSelection os fuel nt all [] tree action = Some m ∧
       ∀ w, m w = (SelectRowsFirst, w, []).
Proof. by exists (mret SelectRowsFirst). Qed.

(** C6: with both pointers null, [SuspendPid] and [ResumePid] return false
    without a call; suspending one selected pid reports no success and one
    failure; and no suspend or resume request makes any call, in particular
    none that terminates a process. *)
Theorem suspend_resume_unavailable p w :
  SuspendPid os (mkNt None None) p w = (false, w, []) ∧
  ResumePid os (mkNt None None) p w = (false, w, []) ∧
  (∀ fuel all, ∃ m,
     ActOnSelection os fuel (mkNt None None) all [p] false 2 = Some m ∧
     m w = (ActionResult 0 1, w, [])) ∧
  (∀ fuel all pids tree action m,
     ActOnSelection os fuel (mkNt None None) all pids tree action = Some m →
     (action = 2 ∨ action = 3)%Z →
     (m w).2 = [] ∧ (m w).1.2 = w ∧ no_action_call (m w).2 ∧
     ∀ ok fail, (m w).1.1 = ActionResult ok fail → ok = 0%Z) ∧
  (os_ntdll os = None → LoadNtFunctions os = mkNt None None).
Proof.
  split_and!; [done|done| | |].
  - intros fuel all. eexists. split; [done|]. done.
  - intros fuel all pids tree action m Hm Hact.
    assert (reaches_OpenProcess (World:=World) (mkNt None None) action = false) as Hr.
    { unfold reaches_OpenProcess. by destruct Hact as [-> | ->]. }
    destruct (decide (pids = [])) as [->|Hne].
    { injection Hm as <-. split_and!; [done|done|by intros ? ?%elem_of_nil|done]. }
    destruct (proj1 (ActOnSelection_returns fuel (mkNt None None) all pids tree action))
      as [?|[victims Hv]]; [by rewrite Hm|done|].
    rewrite (ActOnSelection_run fuel _ all pids tree action victims Hne Hv) in Hm.
    injection Hm as <-.
    destruct (ActLoop_run (mkNt None None) action (reverse victims) 0 0 w)
      as (ok & fail & w' & evs & E & _ & _ & _ & H).
    rewrite Hr in H. destruct H as (-> & -> & ->).
    unfold mbind, M_bind. rewrite E. simpl.
    split_and!; [done|done|by intros ? ?%elem_of_nil|congruence].
  - intros H. unfold LoadNtFunctions. by rewrite H.
Qed.

Lemma ActOnSelection_opened_descending fuel nt all pids tree action victims :
  pids ≠ [] → victims_of fuel tree all pids = Some victims →
  StronglySorted N.lt victims ∧
  ∃ m, ActOnSelection os fuel nt all pids tree action = Some m ∧
    ∀ w, StronglySorted (λ a b, (b < a)%N) (opened (m w).2) ∧
         (reaches_OpenProcess nt action = true → opened (m w).2 = reverse victims).
Proof.
  intros Hne Hv.
  assert (StronglySorted N.lt victims) as Hs.
  { unfold victims_of in Hv. destruct (CollectVictims _ _ _ _) as [raw|]; [|done].
    injection Hv as <-. apply sort_unique_spec. }
  split; [done|]. eexists. split; [by apply ActOnSelection_run|].
  intros w. destruct (ActLoop_run nt action (reverse victims) 0 0 w)
    as (ok & fail & w' & evs & E & _ & _ & _ & H).
  unfold mbind, M_bind. rewrite E. simpl. rewrite app_nil_r.
  destruct (reaches_OpenProcess nt action).
  - rewrite H. split; [by apply StronglySorted_rev|done].
  - destruct H as (_ & _ & ->). split; [constructor|done].
Qed.

(** C3: a request returns whenever the traversals it needs return, and
    then the pids that the loop acts on are without repetition, and so is
    the victim set, whose elements are the selected pids and, with the Tree
    box checked, their descendants: a pid reached through several
    selections is there once. *)
Theorem victims_no_duplicates fuel nt all pids tree action :
  ((tree = true → ∀ p, p ∈ pids → cycle_free_below all p) →
   is_Some (ActOnSelection os (S (length all)) nt all pids tree action)) ∧
  ∀ m, ActOnSelection os fuel nt all pids tree action = Some m →
    (∀ w, NoDup (opened (m w).2)) ∧
    (pids ≠ [] →
     ∃ victims,
       victims_of fuel tree all pids = Some victims ∧ NoDup victims ∧
       (∀ x, x ∈ victims ↔
             ∃ p, p ∈ pids ∧ (x = p ∨ (tree = true ∧ descendant all x p))) ∧
       (∀ w, opened (m w).2 =
             if reaches_OpenProcess nt action then reverse victims else [])).
Proof.
  split; [apply ActOnSelection_total|].
  intros m Hm. by apply ActOnSelection_opened_NoDup.
Qed.



(** C9: with a selection, a request returns whenever the traversals it needs
    return; the victim set is strictly ascending, and the loop takes it from
    the back: the pids that [OpenProcess] is called on are strictly
    descending, from the largest victim to the smallest. *)
Theorem ActOnSelection_descending_order fuel nt all pids tree action :
  pids ≠ [] →
  ((tree = true → ∀ p, p ∈ pids → cycle_free_below all p) →
   is_Some (ActOnSelection os (S (length all)) nt all pids tree action)) ∧
  ∀ victims, victims_of fuel tree all pids = Some victims →
    StronglySorted N.lt victims ∧
    ∃ m, ActOnSelection os fuel nt all pids tree action = Some m ∧
      ∀ w, StronglySorted (λ a b, (b < a)%N) (opened (m w).2) ∧
           (reaches_OpenProcess nt action = true → opened (m w).2 = reverse victims).
Proof.
  intros Hne. split; [apply ActOnSelection_total|].
  intros victims Hv. by apply ActOnSelection_opened_descending.
Qed.

End action_engine.

(** ** Snapshot *)

Section snapshot.
Context {World : Type}.
Variable os : OS World.
Implicit Types (w : World) (v : list Proc) (entries : list PROCESSENTRY32W).

(** The access that [Snapshot] asks for. *)
Local Abbreviation QUERY := (N.lor PROCESS_QUERY_INFORMATION PROCESS_VM_READ).

(** [Enrich] never touches pid, parent pid and name. *)
Lemma Enrich_keeps_identity p w :
  pid (Enrich os p w).1.1 = pid p ∧
  ppid (Enrich os p w).1.1 = ppid p ∧
  name (Enrich os p w).1.1 = name p.
Proof.
  unfold Enrich. destruct (decide (pid p = 0%N)); [done|].
  unfold mbind, M_bind, mret, M_ret, OpenProcess, CloseHandle,
    QueryFullProcessImageNameW, GetProcessMemoryInfo.
  destruct (os_OpenProcess os _ (pid p) w) as [[h|] w1]; simpl; [|done].
  destruct (os_QueryFullProcessImageNameW os h w1) as [[s|] w2]; simpl;
    destruct (os_GetProcessMemoryInfo os h w2) as [[ws|] w3]; simpl; done.
Qed.

(** The idle process is skipped, and a refused [OpenProcess] leaves the
    record as the first loop built it. *)
Lemma Enrich_denied p w :
  pid p = 0%N ∨ (os_OpenProcess os QUERY (pid p) w).1 = None →
  (Enrich os p w).1.1 = p.
Proof.
  unfold Enrich. destruct (decide (pid p = 0%N)); [done|]. intros [?|H]; [done|].
  unfold mbind, M_bind, OpenProcess.
  destruct (os_OpenProcess os _ (pid p) w) as [[h|] w1]; simpl in *; done.
Qed.

(** With the process open, a failed query degrades its own field only. *)
Lemma Enrich_query_failed p w h w1 :
  pid p ≠ 0%N → os_OpenProcess os QUERY (pid p) w = (Some h, w1) →
  ((os_QueryFullProcessImageNameW os h w1).1 = None →
     path (Enrich os p w).1.1 = path p) ∧
  ((os_GetProcessMemoryInfo os h (os_QueryFullProcessImageNameW os h w1).2).1 = None →
     rss (Enrich os p w).1.1 = rss p).
Proof.
  intros Hp Ho. unfold Enrich. destruct (decide (pid p = 0%N)); [done|].
  unfold mbind, M_bind, mret, M_ret, OpenProcess, CloseHandle,
    QueryFullProcessImageNameW, GetProcessMemoryInfo. rewrite Ho. simpl.
  destruct (os_QueryFullProcessImageNameW os h w1) as [[s|] w2]; simpl;
    destruct (os_GetProcessMemoryInfo os h w2) as [[ws|] w3]; simpl; done.
Qed.

Lemma EnrichAll_cons p v w :
  (EnrichAll os (p :: v) w).1.1 =
    (Enrich os p w).1.1 :: (EnrichAll os v (Enrich os p w).1.2).1.1 ∧
  (EnrichAll os (p :: v) w).1.2 = (EnrichAll os v (Enrich os p w).1.2).1.2.
Proof.
  simpl. unfold mbind, M_bind, mret, M_ret.
  destruct (Enrich os p w) as [[p' w1] e1]. simpl.
  destruct (EnrichAll os v w1) as [[r w2] e2]. done.
Qed.

(** Record [i] of the result is record [i] of the input, enriched in the
    world that the records before it left. *)
Lemma EnrichAll_lookup v w i p :
  v !! i = Some p →
  (EnrichAll os v w).1.1 !! i =
  Some (Enrich os p (EnrichAll os (take i v) w).1.2).1.1.
Proof.
  revert w i. induction v as [|p0 v IH]; intros w i Hi; [done|].
  destruct (EnrichAll_cons p0 v w) as [-> _].
  destruct i as [|i]; simpl in Hi.
  - by injection Hi as ->.
  - rewrite firstn_cons. destruct (EnrichAll_cons p0 (take i v) w) as [_ ->].
    simpl. by apply IH.
Qed.

Lemma EnrichAll_length v w : length (EnrichAll os v w).1.1 = length v.
Proof.
  revert w. induction v as [|p v IH]; intros w; [done|].
  destruct (EnrichAll_cons p v w) as [-> _]. simpl. by rewrite IH.
Qed.

Lemma Snapshot_run w h entries w1 :
  os_CreateToolhelp32Snapshot os w = (Some (h, entries), w1) →
  (Snapshot os w).1.1 =
  (EnrichAll os (Proc_of_entry <$> entries) (os_CloseHandle os h w1)).1.1.
Proof.
  intros E. unfold Snapshot, mbind, M_bind, CreateToolhelp32Snapshot, CloseHandle.
  rewrite E. simpl.
  by destruct (EnrichAll os _ _) as [[r w2] e2].
Qed.

(** When ToolHelp gives no snapshot the vector is empty. *)
Lemma Snapshot_invalid_handle w w1 :
  os_CreateToolhelp32Snapshot os w = (None, w1) → Snapshot os w = ([], w1, [EvCreateToolhelp32Snapshot]).
Proof.
  intros E. unfold Snapshot, mbind, M_bind, CreateToolhelp32Snapshot. by rewrite E.
Qed.

(** C8: [Snapshot] returns one record per enumerated entry, in the order of
    the enumeration, with the pid, parent pid and name of the entry.  When
    [OpenProcess] is refused for a record, in the world in which the loop
    reaches it, the record is there all the same and has the empty path and
    0 bytes; so has the idle process, pid 0.  When the process opens and
    one of the two queries fails, the field of that query is empty or 0. *)
Theorem Snapshot_enrichment_degrades w h entries w1 :
  os_CreateToolhelp32Snapshot os w = (Some (h, entries), w1) →
  length (Snapshot os w).1.1 = length entries ∧
  ∀ i pe, entries !! i = Some pe →
    ∃ p, (Snapshot os w).1.1 !! i = Some p ∧
      pid p = th32ProcessID pe ∧ ppid p = th32ParentProcessID pe ∧
      name p = szExeFile pe ∧
      (pid p = 0%N ∨
       (os_OpenProcess os QUERY (pid p) (world_before os h entries w1 i)).1 = None →
       path p = [] ∧ rss p = 0%N) ∧
      (∀ hd wo,
         pid p ≠ 0%N →
         os_OpenProcess os QUERY (pid p) (world_before os h entries w1 i) = (Some hd, wo) →
         ((os_QueryFullProcessImageNameW os hd wo).1 = None → path p = []) ∧
         ((os_GetProcessMemoryInfo os hd
             (os_QueryFullProcessImageNameW os hd wo).2).1 = None → rss p = 0%N)).
Proof.
  intros E. rewrite (Snapshot_run w h entries w1 E). split.
  - by rewrite EnrichAll_length, length_fmap.
  - intros i pe Hi. eexists. split.
    + apply EnrichAll_lookup. by rewrite list_lookup_fmap, Hi.
    + rewrite <- fmap_take. fold (world_before os h entries w1 i).
      set (wi := world_before os h entries w1 i).
      destruct (Enrich_keeps_identity (Proc_of_entry pe) wi) as (Hpid & Hppid & Hname).
      rewrite Hpid, Hppid, Hname. split_and!; [done..| |].
      * intros Hden. by rewrite Enrich_denied.
      * intros hd wo Hp Ho.
        destruct (Enrich_query_failed (Proc_of_entry pe) wi hd wo Hp Ho) as [H1 H2].
        split; intros Hq; [by rewrite H1|by rewrite H2].
Qed.

End snapshot.

(** ** The claims on concrete requests *)

(** Both check marks of the example: the selection A and B of the example
    tree with the Tree box checked.  The subtrees overlap in B and D; the
    victim set has each pid once. *)
Example victims_of_overlapping_selection :
  CollectVictims 3 true (BuildChildren example_tree) [10; 20]%N
    = Some [10; 20; 40; 30; 20; 40]%N ∧
  victims_of 3 true example_tree [10; 20]%N = Some [10; 20; 30; 40]%N.
Proof. vm_compute. done. Qed.

(** C3 on the overlapping selection. *)
Lemma victims_no_duplicates_witness :
  ∃ m, ActOnSelection (demo_os [] false) 3 (mkNt None None) example_tree
         [10; 20]%N true 1 = Some m ∧
       ∀ w, NoDup (opened (m w).2).
Proof.
  eexists. split; [reflexivity|].
  apply (proj2 (victims_no_duplicates (demo_os [] false) 3 (mkNt None None) example_tree
                  [10; 20]%N true 1) _ eq_refl).
Defined.

(** Five selected pids, [OpenProcess] refused on one of them: four
    successes and one failure, and all five were opened, largest first. *)
Example partial_failure_of_five :
  ∃ m, ActOnSelection (demo_os [12]%N false) 0 (mkNt None None) []
         [4; 8; 12; 16; 20]%N false 1 = Some m ∧
       (m []).1 = (ActionResult 4 1, [4; 8; 16; 20]%N) ∧
       opened (m []).2 = [20; 16; 12; 8; 4]%N.
Proof. eexists. split; [reflexivity|]. vm_compute. done. Qed.

(** In that request the turn of pid 12 is the one that fails: it is
    reached after 20 and 16 were terminated, and every other turn
    succeeds. *)
Example one_failure_among_five :
  let ts := turns (demo_os [12]%N false) (mkNt None None) 1
              (reverse [4; 8; 12; 16; 20]%N) [] in
  ts = [(20, []); (16, [20]); (12, [16; 20]); (8, [16; 20]); (4, [8; 16; 20])]%N ∧
  turn_result (demo_os [12]%N false) (mkNt None None) 1 (12, [16; 20])%N = false ∧
  ∀ t', t' ∈ ts → t' ≠ (12, [16; 20])%N →
        turn_result (demo_os [12]%N false) (mkNt None None) 1 t' = true.
Proof.
  split_and!; [by vm_compute..|].
  intros t' Ht' Hne. vm_compute in Ht'.
  repeat (apply elem_of_cons in Ht' as [->|Ht']; [by vm_compute|]).
  by apply elem_of_nil in Ht'.
Qed.


(** Suspend without the ntdll functions: one failure, no call. *)
Example suspend_without_capability :
  LoadNtFunctions (demo_os [] false) = mkNt None None ∧
  ∃ m, ActOnSelection (demo_os [] false) 0 (LoadNtFunctions (demo_os [] false)) []
         [8]%N false 2 = Some m ∧
       m [] = (ActionResult 0 1, [], []).
Proof. split; [done|]. eexists. split; [reflexivity|]. vm_compute. done. Qed.

(** Suspend with them: the process is opened, suspended and closed. *)
Example suspend_with_capability :
  ∃ m, ActOnSelection (demo_os [] true) 0 (LoadNtFunctions (demo_os [] true)) []
         [8]%N false 2 = Some m ∧
       m [] = (ActionResult 1 0, [],
               [EvOpenProcess (N.lor PROCESS_SUSPEND_RESUME PROCESS_QUERY_INFORMATION) 8 (Some 8%N);
                EvNtSuspendProcess 8; EvCloseHandle 8]).
Proof. eexists. split; [reflexivity|]. vm_compute. done. Qed.

(** C9 on the overlapping selection. *)
Lemma ActOnSelection_descending_order_witness :
  [10; 20]%N ≠ [] ∧
  victims_of 3 true example_tree [10; 20]%N = Some [10; 20; 30; 40]%N ∧
  StronglySorted N.lt [10; 20; 30; 40]%N ∧
  ∃ m, ActOnSelection (demo_os [] false) 3 (mkNt None None) example_tree
         [10; 20]%N true 1 = Some m ∧
    ∀ w, StronglySorted (λ a b, (b < a)%N) (opened (m w).2) ∧
         (reaches_OpenProcess (World:=list N) (mkNt None None) 1 = true →
          opened (m w).2 = reverse [10; 20; 30; 40]%N).
Proof.
  split; [done|]. split; [reflexivity|].
  apply (proj2 (ActOnSelection_descending_order (demo_os [] false) 3 (mkNt None None)
                  example_tree [10; 20]%N true 1 ltac:(done))
           [10; 20; 30; 40]%N eq_refl).
Defined.

(** Kill on the overlapping selection: D, C, B, A in this order. *)
Example kill_order_of_example :
  ∃ m, ActOnSelection (demo_os [] false) 3 (mkNt None None) example_tree
         [10; 20]%N true 1 = Some m ∧
       opened (m []).2 = [40; 30; 20; 10]%N ∧
       (m []).1 = (ActionResult 4 0, [10; 20; 30; 40]%N).
Proof. eexists. split; [reflexivity|]. vm_compute. done. Qed.

(** A snapshot in which [OpenProcess] is refused on pid 8: the record of
    pid 8 is there, with empty path and no memory, like the idle process. *)
Example Snapshot_with_denied_process :
  (Snapshot (demo_os [8]%N false) []).1.1 =
  [mkProc 0 0 [73] [] 0; mkProc 4 0 [83] [67; 58; 92; 97] 4096;
   mkProc 8 4 [65] [] 0; mkProc 12 4 [66] [67; 58; 92; 97] 4096]%N.
Proof. vm_compute. done. Qed.

(** C8 on that snapshot, at the record of pid 8. *)
Lemma Snapshot_enrichment_degrades_witness :
  os_CreateToolhelp32Snapshot (demo_os [8]%N false) [] =
    (Some (4242%N, [mkPE 0 0 [73]; mkPE 4 0 [83]; mkPE 8 4 [65]; mkPE 12 4 [66]]%N), []) ∧
  length (Snapshot (demo_os [8]%N false) []).1.1 = 4 ∧
  ∃ p, (Snapshot (demo_os [8]%N false) []).1.1 !! 2 = Some p ∧
       pid p = 8%N ∧ path p = [] ∧ rss p = 0%N.
Proof.
  split; [reflexivity|].
  destruct (Snapshot_enrichment_degrades (demo_os [8]%N false) [] 4242%N _ [] eq_refl)
    as [Hlen Hrec].
  split; [exact Hlen|].
  destruct (Hrec 2 (mkPE 8 4 [65]%N) eq_refl) as (p & Hp & Hpid & _ & _ & Hden & _).
  exists p. split; [exact Hp|]. split; [exact Hpid|].
  apply Hden. right. rewrite Hpid. reflexivity.
Defined.

(** The query NOTE matches notepad.exe by name and a path that ends in
    Notes; it does not match cmd.exe. *)
Example applyFilter_example :
  let notepad := mkProc 8 4 [110; 111; 116; 101; 112; 97; 100]%N [67; 58]%N 0 in
  let cmd := mkProc 12 4 [99; 109; 100]%N [67; 58]%N 0 in
  let other := mkProc 16 4 [120]%N [67; 58; 92; 78; 111; 116; 101; 115]%N 0 in
  applyFilter ascii_towlower [notepad; cmd; other] [78; 79; 84; 69]%N = [notepad; other] ∧
  applyFilter ascii_towlower [notepad; cmd; other] [] = [notepad; cmd; other].
Proof. vm_compute. done. Qed.

(** * Further properties *)

(** ** The index *)

Lemma concat_Permutation {A} (l k : list (list A)) :
  l ≡ₚ k → concat l ≡ₚ concat k.
Proof.
  induction 1 as [|x l k _ IH|x y l|l k m _ IH1 _ IH2]; simpl.
  - done.
  - by rewrite IH.
  - by rewrite !(assoc_L (++)), (comm (++) y x).
  - by rewrite IH1.
Qed.

Lemma BuildChildren_snoc (v : list Proc) (r : Proc) :
  BuildChildren (v ++ [r]) =
  <[ppid r := default [] (BuildChildren v !! ppid r) ++ [pid r]]> (BuildChildren v).
Proof. unfold BuildChildren. by rewrite foldl_snoc. Qed.

Lemma BuildChildren_values (v : list Proc) :
  concat (map_to_list (BuildChildren v)).*2 ≡ₚ pid <$> v.
Proof.
  induction v as [|r v IH] using rev_ind.
  { unfold BuildChildren. simpl. by rewrite map_to_list_empty. }
  rewrite BuildChildren_snoc, fmap_app. simpl.
  destruct (BuildChildren v !! ppid r) as [old|] eqn:E; simpl.
  - rewrite <- insert_delete_eq.
    rewrite map_to_list_insert by apply lookup_delete_eq.
    rewrite <- IH, <- (map_to_list_delete _ _ _ E). simpl.
    rewrite <- !(assoc_L (++)). apply Permutation_app_head, (comm (++)).
  - rewrite map_to_list_insert by done. simpl. rewrite IH. apply Permutation_cons_append.
Qed.

(** X1.  The index has a bucket exactly for the pids that are the parent of
    a record; no bucket is empty; the bucket of [p] holds the pids of the
    records whose parent is [p], in snapshot order; every record is found
    in the bucket of its parent; and all buckets together hold the pids of
    the snapshot, each as often as the snapshot lists it. *)
Theorem BuildChildren_index_invariant (v : list Proc) :
  (∀ p, is_Some (BuildChildren v !! p) ↔ p ∈ ppid <$> v) ∧
  (∀ p cs, BuildChildren v !! p = Some cs →
           cs ≠ [] ∧ cs = pid <$> filter (λ r, ppid r = p) v) ∧
  (∀ r, r ∈ v → ∃ cs, BuildChildren v !! ppid r = Some cs ∧ pid r ∈ cs) ∧
  concat (map_to_list (BuildChildren v)).*2 ≡ₚ pid <$> v.
Proof.
  split_and!.
  - intros p. rewrite <- not_eq_None_Some, BuildChildren_lookup_None.
    destruct (decide (p ∈ ppid <$> v)); naive_solver.
  - intros p cs H. pose proof (BuildChildren_lookup_Some v p cs H) as ->.
    split; [|done]. rewrite BuildChildren_lookup in H.
    by destruct (children v p).
  - intros r Hr. rewrite BuildChildren_lookup.
    assert (pid r ∈ children v (ppid r)) as Hin.
    { apply elem_of_children. by exists r. }
    destruct (children v (ppid r)) as [|c cs] eqn:E; [by apply elem_of_nil in Hin|].
    by eexists.
  - apply BuildChildren_values.
Qed.

(** ** The victim set *)

Lemma mapM_option_app {A B} (f : A → option B) (l1 l2 : list A) :
  mapM f (l1 ++ l2) =
  match mapM f l1, mapM f l2 with
  | Some x, Some y => Some (x ++ y)
  | _, _ => None
  end.
Proof.
  induction l1 as [|a l1 IH]; simpl.
  - by destruct (mapM f l2).
  - destruct (f a); simpl; [|done]. rewrite IH.
    by destruct (mapM f l1), (mapM f l2).
Qed.

Lemma CollectVictims_app fuel tree ch (pids1 pids2 : list N) :
  CollectVictims fuel tree ch (pids1 ++ pids2) =
  l1 ← CollectVictims fuel tree ch pids1;
  l2 ← CollectVictims fuel tree ch pids2;
  Some (l1 ++ l2).
Proof.
  destruct tree.
  - rewrite !CollectVictims_tree, mapM_option_app.
    destruct (mapM _ pids1), (mapM _ pids2); simpl; try done.
    by rewrite concat_app.
  - rewrite !CollectVictims_direct. done.
Qed.

(** X2.  The raw victim vector of a selection is built piece by piece: the
    vector of [pids1 ++ pids2] is the vector of [pids1] followed by the
    vector of [pids2] (and there is none when one of the two traversals does
    not return); one selected pid contributes itself, or with the Tree box
    checked its traversal. *)
Theorem CollectVictims_concatenates fuel (tree : bool) ch (pids1 pids2 : list N) (p : N) :
  CollectVictims fuel tree ch (pids1 ++ pids2) =
    (l1 ← CollectVictims fuel tree ch pids1;
     l2 ← CollectVictims fuel tree ch pids2;
     Some (l1 ++ l2)) ∧
  CollectVictims fuel tree ch [p] =
    (if tree then CollectTree fuel p ch [] else Some [p]) ∧
  CollectVictims fuel tree ch [] = Some [].
Proof.
  split_and!; [apply CollectVictims_app| |done].
  destruct tree; [|done]. unfold CollectVictims. simpl.
  by destruct (CollectTree fuel p ch []).
Qed.

Lemma StronglySorted_lt_elements (l k : list N) :
  StronglySorted N.lt l → StronglySorted N.lt k →
  (∀ x, x ∈ l ↔ x ∈ k) → l = k.
Proof.
  intros Hl Hk Hlk. apply (StronglySorted_unique_strong N.lt); [|done|done|].
  - intros x y _ _ ? ?. lia.
  - apply NoDup_Permutation; [by apply StronglySorted_lt_NoDup..|done].
Qed.

Lemma victims_of_tree_is_Some fuel all (pids : list N) :
  is_Some (victims_of fuel true all pids) ↔
  Forall (λ p, is_Some (CollectTree fuel p (BuildChildren all) [])) pids.
Proof.
  unfold victims_of. rewrite CollectVictims_tree.
  pose proof (mapM_is_Some (λ p, CollectTree fuel p (BuildChildren all) []) pids) as H.
  rewrite <- H. destruct (mapM (λ p, CollectTree fuel p (BuildChildren all) []) pids);
    simpl; split; intros [? ?]; by eauto.
Qed.

(** X3.  The victim set depends on the selection as a set only: the order
    of the selected rows and a row selected twice make no difference, also
    to whether the request returns. *)
Theorem victims_of_selection_as_set fuel tree all (pids pids' : list N) :
  (∀ x, x ∈ pids ↔ x ∈ pids') →
  victims_of fuel tree all pids = victims_of fuel tree all pids'.
Proof.
  intros Hset.
  assert (is_Some (victims_of fuel tree all pids) ↔
          is_Some (victims_of fuel tree all pids')) as Hsome.
  { destruct tree; [|by rewrite !victims_of_direct].
    rewrite !victims_of_tree_is_Some, !Forall_forall. naive_solver. }
  destruct (victims_of fuel tree all pids) as [vs|] eqn:E,
           (victims_of fuel tree all pids') as [vs'|] eqn:E'.
  - f_equal. apply StronglySorted_lt_elements.
    + unfold victims_of in E. destruct (CollectVictims _ _ _ pids); [|done].
      injection E as <-. apply sort_unique_spec.
    + unfold victims_of in E'. destruct (CollectVictims _ _ _ pids'); [|done].
      injection E' as <-. apply sort_unique_spec.
    + intros x. rewrite (elem_of_victims _ _ _ _ _ E), (elem_of_victims _ _ _ _ _ E').
      naive_solver.
  - exfalso. destruct (proj1 Hsome); [by eexists|done].
  - exfalso. destruct (proj2 Hsome); [by eexists|done].
  - done.
Qed.

(** X3 on a selection listed twice and in another order. *)
Lemma victims_of_selection_as_set_witness :
  (∀ x, x ∈ [20; 10; 20]%N ↔ x ∈ [10; 20]%N) ∧
  victims_of 3 true example_tree [20; 10; 20]%N =
  victims_of 3 true example_tree [10; 20]%N.
Proof.
  assert (∀ x, x ∈ [20; 10; 20]%N ↔ x ∈ [10; 20]%N) as H.
  { intros x. rewrite !elem_of_cons. naive_solver. }
  split; [exact H|].
  exact (victims_of_selection_as_set 3 true example_tree _ _ H).
Defined.

(** ** Traces of the action engine *)

Section action_traces.
Context {World : Type}.
Variable os : OS World.
Implicit Types (nt : NtFunctions World) (w : World) (its victims pids : list N).

Ltac run_os :=
  unfold mbind, M_bind, mret, M_ret, OpenProcess, TerminateProcess, CloseHandle,
    NtSuspendProcess, NtResumeProcess;
  simpl;
  repeat match goal with
         | |- context [match ?x with _ => _ end] =>
             lazymatch x with
             | context [match _ with _ => _ end] => fail
             | _ => let E := fresh "E" in destruct x eqn:E; simpl
             end
         end.

(** The events of one turn of the loop: nothing, a refused [OpenProcess],
    or an open, the primitive of the action, and the close. *)
Lemma ActOnPid_trace nt action p w :
  Forall (event_of_action action) (ActOnPid os nt action p w).2 ∧
  ∀ cur rest,
    handles_ok cur ((ActOnPid os nt action p w).2 ++ rest) =
    match cur with
    | None => handles_ok None rest
    | Some _ => match (ActOnPid os nt action p w).2 with
                | [] => handles_ok cur rest
                | _ :: _ => false
                end
    end.
Proof.
  unfold ActOnPid, TerminatePid, SuspendPid, ResumePid.
  destruct (decide (action = 1%Z)) as [->|?];
    [|destruct (decide (action = 2%Z)) as [->|?];
      [|destruct (decide (action = 3%Z)) as [->|?]]];
    run_os; (split; [repeat constructor; simpl; auto|]);
    intros [h'|] rest; simpl; rewrite ?bool_decide_eq_true_2 by done; done.
Qed.

Lemma ActLoop_cons nt action p its ok fail w :
  ActLoop os nt action (p :: its) ok fail w =
  let '(res, w1, e1) := ActOnPid os nt action p w in
  let '(r, w2, e2) :=
    ActLoop os nt action its (if res then (ok + 1)%Z else ok)
      (if res then fail else (fail + 1)%Z) w1 in
  (r, w2, e1 ++ e2).
Proof.
  simpl. unfold mbind, M_bind. destruct (ActOnPid os nt action p w) as [[[] w1] e1]; done.
Qed.

Lemma ActLoop_trace nt action its :
  ∀ ok fail w,
    Forall (event_of_action action) (ActLoop os nt action its ok fail w).2 ∧
    ∀ rest, handles_ok None ((ActLoop os nt action its ok fail w).2 ++ rest) =
            handles_ok None rest.
Proof.
  induction its as [|p its IH]; intros ok fail w; [by split|].
  rewrite ActLoop_cons.
  destruct (ActOnPid_trace nt action p w) as [H1 H2].
  destruct (ActOnPid os nt action p w) as [[res w1] e1]. simpl in *.
  destruct (IH (if res then (ok + 1)%Z else ok) (if res then fail else (fail + 1)%Z) w1)
    as [H3 H4].
  destruct (ActLoop os nt action its _ _ w1) as [[r w2] e2]. simpl in *.
  split; [by apply Forall_app|].
  intros rest. by rewrite <- (assoc_L (++)), (H2 None), H4.
Qed.

Lemma ActOnSelection_events fuel nt all pids tree action m w :
  ActOnSelection os fuel nt all pids tree action = Some m →
  (m w).2 = [] ∨
  ∃ victims, victims_of fuel tree all pids = Some victims ∧ pids ≠ [] ∧
    (m w).2 = (ActLoop os nt action (reverse victims) 0 0 w).2.
Proof.
  intros Hm. destruct (decide (pids = [])) as [->|Hne].
  { injection Hm as <-. by left. }
  destruct (proj1 (ActOnSelection_returns os fuel nt all pids tree action))
    as [?|[victims Hv]]; [by rewrite Hm|done|].
  right. exists victims. split_and!; [done..|].
  rewrite (ActOnSelection_run os fuel nt all pids tree action victims Hne Hv) in Hm.
  injection Hm as <-. unfold mbind, M_bind.
  destruct (ActLoop os nt action (reverse victims) 0 0 w) as [[[ok fail] w'] evs].
  simpl. apply app_nil_r.
Qed.

(** X4.  Handles are used like brackets by every request: [OpenProcess] is
    called only while no handle is open, [TerminateProcess] and the ntdll
    calls are made on the handle that is open, every handle is closed
    before the next victim, and none is open at the end, also when a call
    fails. *)
Theorem ActOnSelection_closes_every_handle fuel nt all pids tree action m :
  ActOnSelection os fuel nt all pids tree action = Some m →
  ∀ w, handles_ok None (m w).2 = true.
Proof.
  intros Hm w.
  destruct (ActOnSelection_events fuel nt all pids tree action m w Hm)
    as [->|(victims & _ & _ & ->)]; [done|].
  destruct (ActLoop_trace nt action (reverse victims) 0 0 w) as [_ H].
  specialize (H []). by rewrite app_nil_r in H.
Qed.

(** X5.  A request makes only the calls of its action: kill opens with
    [PROCESS_TERMINATE] and calls [TerminateProcess] with exit code 1;
    suspend and resume open with [PROCESS_SUSPEND_RESUME |
    PROCESS_QUERY_INFORMATION] and call their own ntdll function; so a
    suspend or resume never terminates a process, a kill never suspends
    one, and an unknown action code makes no call at all. *)
Theorem ActOnSelection_calls_by_action fuel nt all pids tree action m :
  ActOnSelection os fuel nt all pids tree action = Some m →
  ∀ w, Forall (event_of_action action) (m w).2 ∧
       (action ≠ 1%Z → ∀ h c, EvTerminateProcess h c ∉ (m w).2) ∧
       (action ≠ 2%Z → ∀ h, EvNtSuspendProcess h ∉ (m w).2) ∧
       (action ≠ 3%Z → ∀ h, EvNtResumeProcess h ∉ (m w).2) ∧
       (action ≠ 1%Z → action ≠ 2%Z → action ≠ 3%Z → (m w).2 = []).
Proof.
  intros Hm w.
  assert (Forall (event_of_action action) (m w).2) as Hall.
  { destruct (ActOnSelection_events fuel nt all pids tree action m w Hm)
      as [->|(victims & _ & _ & ->)]; [constructor|].
    apply ActLoop_trace. }
  split; [done|]. rewrite Forall_forall in Hall. split_and!.
  - intros Hne h c Hin. apply Hall in Hin. simpl in Hin. tauto.
  - intros Hne h Hin. apply Hall in Hin. simpl in Hin. tauto.
  - intros Hne h Hin. apply Hall in Hin. simpl in Hin. tauto.
  - intros H1 H2 H3. destruct ((m w).2) as [|e evs]; [done|]. exfalso.
    specialize (Hall e ltac:(left)). destruct e; simpl in Hall; tauto.
Qed.

Lemma descendant_pid_lt all x a :
  Forall (λ r, (ppid r < pid r)%N) all → descendant all x a → (a < x)%N.
Proof.
  intros Hlt. induction 1 as [x a (r & Hr & <- & <-)|x y a (r & Hr & <- & <-) _ IH].
  - by apply (proj1 (Forall_forall _ _) Hlt).
  - pose proof (proj1 (Forall_forall _ _) Hlt r Hr). simpl in *. lia.
Qed.

Lemma StronglySorted_lookup_lt {A} (R : relation A) (l : list A) i j a b :
  StronglySorted R l → i < j → l !! i = Some a → l !! j = Some b → R a b.
Proof.
  intros Hs. revert i j. induction Hs as [|x l _ IH Hx]; intros i j Hij Hi Hj; [done|].
  destruct j as [|j]; [lia|]. simpl in Hj. destruct i as [|i]; simpl in Hi.
  - injection Hi as ->. apply (proj1 (Forall_forall _ _) Hx). by eapply list_elem_of_lookup_2.
  - apply (IH i j); [lia|done..].
Qed.

(** X6.  When the pid of every process is larger than the pid of its
    parent, a request acts on every process before it acts on any of its
    ancestors: children go before their parents. *)
Theorem ActOnSelection_children_before_parents fuel nt all pids tree action m :
  Forall (λ r, (ppid r < pid r)%N) all →
  ActOnSelection os fuel nt all pids tree action = Some m →
  ∀ w i j x a,
    opened (m w).2 !! i = Some x → opened (m w).2 !! j = Some a →
    descendant all x a → i < j.
Proof.
  intros Hlt Hm w i j x a Hi Hj Hdesc.
  pose proof (descendant_pid_lt all x a Hlt Hdesc) as Hax.
  assert (StronglySorted (λ a b, (b < a)%N) (opened (m w).2)) as Hs.
  { destruct (decide (pids = [])) as [->|Hne].
    { injection Hm as <-. constructor. }
    destruct (proj1 (ActOnSelection_returns os fuel nt all pids tree action))
      as [?|[victims Hv]]; [by rewrite Hm|done|].
    destruct (ActOnSelection_opened_descending os fuel nt all pids tree action victims Hne Hv)
      as (_ & m' & Hm' & H). rewrite Hm in Hm'. injection Hm' as <-. apply H. }
  destruct (Nat.lt_trichotomy i j) as [?|[->|Hji]]; [done| |].
  - rewrite Hi in Hj. injection Hj as ->. lia.
  - pose proof (StronglySorted_lookup_lt _ _ j i a x Hs Hji Hj Hi). simpl in *. lia.
Qed.

End action_traces.

(** Without that order of the pids the parent can come first: B = 20 was
    started by A = 30, and a kill of the subtree of A opens A before B. *)
Example parent_before_child :
  ∃ m, ActOnSelection (demo_os [] false) 3 (mkNt None None)
         [mkProc 30 1 [] [] 0; mkProc 20 30 [] [] 0] [30]%N true 1 = Some m ∧
       opened (m []).2 = [30; 20]%N.
Proof. eexists. split; [reflexivity|]. vm_compute. done. Qed.

(** X4 on a kill with one refused [OpenProcess]. *)
Lemma ActOnSelection_closes_every_handle_witness :
  ∃ m, ActOnSelection (demo_os [12]%N false) 0 (mkNt None None) []
         [4; 8; 12; 16; 20]%N false 1 = Some m ∧
       ∀ w, handles_ok None (m w).2 = true.
Proof.
  eexists. split; [reflexivity|].
  exact (ActOnSelection_closes_every_handle (demo_os [12]%N false) 0 (mkNt None None) []
           [4; 8; 12; 16; 20]%N false 1 _ eq_refl).
Defined.

(** X5 on a suspend with the ntdll functions present. *)
Lemma ActOnSelection_calls_by_action_witness :
  ∃ m, ActOnSelection (demo_os [] true) 0 (LoadNtFunctions (demo_os [] true)) []
         [8; 12]%N false 2 = Some m ∧
       ∀ w h c, EvTerminateProcess h c ∉ (m w).2.
Proof.
  eexists. split; [reflexivity|]. intros w.
  exact (proj1 (proj2 (ActOnSelection_calls_by_action (demo_os [] true) 0
           (LoadNtFunctions (demo_os [] true)) [] [8; 12]%N false 2 _ eq_refl w))
           ltac:(done)).
Defined.

(** X6 on the example tree, where every parent has the smaller pid. *)
Lemma ActOnSelection_children_before_parents_witness :
  Forall (λ r, (ppid r < pid r)%N) example_tree ∧
  ∃ m, ActOnSelection (demo_os [] false) 3 (mkNt None None) example_tree
         [10]%N true 1 = Some m ∧
    ∀ w i j x a,
      opened (m w).2 !! i = Some x → opened (m w).2 !! j = Some a →
      descendant example_tree x a → i < j.
Proof.
  assert (Forall (λ r, (ppid r < pid r)%N) example_tree) as H by (repeat constructor).
  split; [exact H|]. eexists. split; [reflexivity|].
  exact (ActOnSelection_children_before_parents (demo_os [] false) 3 (mkNt None None)
           example_tree [10]%N true 1 _ H eq_refl).
Defined.

(** ** Trace of the snapshot *)

Section snapshot_trace.
Context {World : Type}.
Variable os : OS World.
Implicit Types (w : World) (v : list Proc).

Lemma Enrich_trace p w :
  Forall snapshot_event (Enrich os p w).2 ∧
  opened (Enrich os p w).2 = (if decide (pid p = 0%N) then [] else [pid p]) ∧
  ∀ rest, handles_ok None ((Enrich os p w).2 ++ rest) = handles_ok None rest.
Proof.
  unfold Enrich. destruct (decide (pid p = 0%N)) as [?|Hne]; [by split_and!|].
  unfold mbind, M_bind, mret, M_ret, OpenProcess, CloseHandle,
    QueryFullProcessImageNameW, GetProcessMemoryInfo.
  destruct (os_OpenProcess os _ (pid p) w) as [[h|] w1]; simpl.
  - destruct (os_QueryFullProcessImageNameW os h w1) as [q w2]; simpl.
    destruct (os_GetProcessMemoryInfo os h w2) as [mi w3]; simpl.
    split_and!; [repeat constructor; done|done|].
    intros rest. by rewrite !bool_decide_eq_true_2 by done.
  - split_and!; [repeat constructor; done|done|done].
Qed.

Lemma EnrichAll_trace v :
  ∀ w, Forall snapshot_event (EnrichAll os v w).2 ∧
       opened (EnrichAll os v w).2 = filter (λ p, p ≠ 0%N) (pid <$> v) ∧
       ∀ rest, handles_ok None ((EnrichAll os v w).2 ++ rest) = handles_ok None rest.
Proof.
  induction v as [|p v IH]; intros w; [by split_and!|].
  simpl. unfold mbind, M_bind, mret, M_ret.
  destruct (Enrich_trace p w) as (H1 & H2 & H3).
  destruct (Enrich os p w) as [[p' w1] e1]. simpl in *.
  destruct (IH w1) as (H4 & H5 & H6).
  destruct (EnrichAll os v w1) as [[r w2] e2]. simpl in *.
  rewrite app_nil_r. split_and!.
  - by apply Forall_app.
  - unfold opened in *. rewrite omap_app, H2, H5, filter_cons.
    by destruct (decide (pid p = 0%N)), (decide (pid p ≠ 0%N)).
  - intros rest. by rewrite <- (assoc_L (++)), H3, H6.
Qed.

(** X7.  The trace of [Snapshot]: one ToolHelp snapshot; when there is
    none, nothing else; otherwise its handle is closed, and then every
    listed process except pid 0 is opened once, in the order of the list,
    for query only; handles are used like brackets and none is left open;
    nothing is terminated, suspended or resumed. *)
Theorem Snapshot_trace w :
  match os_CreateToolhelp32Snapshot os w with
  | (None, _) => (Snapshot os w).2 = [EvCreateToolhelp32Snapshot]
  | (Some (h, entries), _) =>
      ∃ rest,
        (Snapshot os w).2 = EvCreateToolhelp32Snapshot :: EvCloseHandle h :: rest ∧
        handles_ok None rest = true ∧
        Forall snapshot_event rest ∧
        opened rest = filter (λ p, p ≠ 0%N) (th32ProcessID <$> entries) ∧
        no_action_call (Snapshot os w).2
  end.
Proof.
  unfold Snapshot, mbind, M_bind, mret, M_ret, CreateToolhelp32Snapshot, CloseHandle.
  destruct (os_CreateToolhelp32Snapshot os w) as [[[h entries]|] w1]; [|done].
  simpl. destruct (EnrichAll_trace (Proc_of_entry <$> entries) (os_CloseHandle os h w1))
    as (H1 & H2 & H3).
  destruct (EnrichAll os _ _) as [[r w2] e2]. simpl in *.
  exists e2. split_and!; [done| |done| |].
  - specialize (H3 []). by rewrite app_nil_r in H3.
  - rewrite H2, <- list_fmap_compose. done.
  - intros e [->|[->|He]%elem_of_cons]%elem_of_cons; [done..|].
    apply (proj1 (Forall_forall _ _) H1) in He. by destruct e.
Qed.

End snapshot_trace.

(** ** Filter engine, further *)

Section filter_more.
Variable towlower : wchar_t → wchar_t.
Implicit Types (s q hay needle : list N) (l : list Proc).

Lemma ci_substring_folded q s :
  ci_substring towlower q s ↔
  ∃ pre post, ToLower towlower s = pre ++ ToLower towlower q ++ post.
Proof. by rewrite <- IContains_spec; unfold IContains; rewrite bool_decide_eq_true, find_spec. Qed.

Lemma ci_substring_trans q q' s :
  ci_substring towlower q q' → ci_substring towlower q' s → ci_substring towlower q s.
Proof.
  rewrite !ci_substring_folded. intros (pre & post & H1) (pre' & post' & H2).
  exists (pre' ++ pre), (post ++ post'). rewrite H2, H1. by rewrite <- !(assoc_L (++)).
Qed.

Lemma ci_substring_same_fold q q' s :
  ToLower towlower q = ToLower towlower q' →
  ci_substring towlower q s ↔ ci_substring towlower q' s.
Proof. intros H. by rewrite !ci_substring_folded, H. Qed.

(** X8.  The case of the query does not matter: two queries with the same
    lower-case fold give the same view. *)
Theorem applyFilter_query_case (snapshot : list Proc) (q q' : list N) :
  ToLower towlower q = ToLower towlower q' →
  applyFilter towlower snapshot q = applyFilter towlower snapshot q'.
Proof.
  intros H. rewrite !applyFilter_filter. apply list_filter_iff. intros p.
  unfold matches_query. by rewrite !(ci_substring_same_fold q q' _ H).
Qed.

(** X9.  Extending the query narrows the view: when [q] occurs in [q'], up
    to case, every record kept for [q'] is kept for [q], so the view for
    [q'] can be computed from the view for [q]. *)
Theorem applyFilter_narrows (snapshot : list Proc) (q q' : list N) :
  ci_substring towlower q q' →
  applyFilter towlower snapshot q' =
    applyFilter towlower (applyFilter towlower snapshot q) q' ∧
  applyFilter towlower snapshot q' `sublist_of` applyFilter towlower snapshot q.
Proof.
  intros Hq.
  assert (applyFilter towlower snapshot q' =
          applyFilter towlower (applyFilter towlower snapshot q) q') as H.
  { rewrite !applyFilter_filter. symmetry. apply list_filter_filter_l.
    intros p [?|?]; [left|right]; by eapply ci_substring_trans. }
  split; [done|]. rewrite H at 1. rewrite (applyFilter_filter _ (applyFilter _ _ _)).
  apply sublist_filter.
Qed.

Lemma ApplyFilter_fields (g : AppState) :
  ApplyFilter towlower g =
  mkAppState (g_all g) (applyFilter towlower (g_all g) (g_filter g)) (g_filter g).
Proof.
  unfold applyFilter, ApplyFilter. simpl. destruct (g_filter g) eqn:E; [done|].
  by rewrite !ApplyFilter_loop.
Qed.

(** X10.  [ApplyFilter] replaces the view and nothing else: the snapshot
    and the search text are kept, and the old view is not read.  The view
    is a sublist of the snapshot, and the view of two snapshots put
    together is the two views put together. *)
Theorem ApplyFilter_frame (g : AppState) (s1 s2 : list Proc) (q : list N) :
  g_all (ApplyFilter towlower g) = g_all g ∧
  g_filter (ApplyFilter towlower g) = g_filter g ∧
  g_filtered (ApplyFilter towlower g) = applyFilter towlower (g_all g) (g_filter g) ∧
  applyFilter towlower s1 q `sublist_of` s1 ∧
  applyFilter towlower (s1 ++ s2) q =
    applyFilter towlower s1 q ++ applyFilter towlower s2 q.
Proof.
  rewrite ApplyFilter_fields. split_and!; [done..| |].
  - rewrite applyFilter_filter. apply sublist_filter.
  - rewrite !applyFilter_filter. apply filter_app.
Qed.

(** X11.  [IContains]: every string contains the empty string and itself;
    a needle longer than the haystack is not contained; the empty haystack
    contains the empty needle only; and containment is transitive. *)
Theorem IContains_laws (a b c : list N) :
  IContains towlower a [] = true ∧
  IContains towlower a a = true ∧
  (length a < length b → IContains towlower a b = false) ∧
  (IContains towlower [] b = true ↔ b = []) ∧
  (IContains towlower a b = true → IContains towlower b c = true →
   IContains towlower a c = true).
Proof.
  split_and!.
  - apply IContains_spec, ci_substring_nil.
  - apply IContains_spec, ci_substring_folded. exists [], []. by rewrite app_nil_r.
  - intros Hlen. apply not_true_is_false. rewrite IContains_spec, ci_substring_folded.
    intros (pre & post & H). apply (f_equal length) in H.
    unfold ToLower in H. rewrite !length_app, !length_fmap in H. lia.
  - rewrite IContains_spec, ci_substring_folded. split.
    + intros (pre & post & H). symmetry in H. apply app_eq_nil in H as [_ H].
      apply app_eq_nil in H as [H _]. by apply fmap_nil_inv in H.
    + intros ->. by exists [], [].
  - rewrite !IContains_spec. intros H1 H2. by eapply ci_substring_trans.
Qed.

End filter_more.

(** X8 on NOTE and note. *)
Lemma applyFilter_query_case_witness :
  ToLower ascii_towlower [78; 79; 84; 69]%N = ToLower ascii_towlower [110; 111; 116; 101]%N ∧
  applyFilter ascii_towlower example_tree [78; 79; 84; 69]%N =
  applyFilter ascii_towlower example_tree [110; 111; 116; 101]%N.
Proof.
  split; [reflexivity|].
  exact (applyFilter_query_case ascii_towlower example_tree _ _ eq_refl).
Defined.

(** X9 on the queries ot and NOTE. *)
Lemma applyFilter_narrows_witness :
  ci_substring ascii_towlower [111; 116]%N [78; 79; 84; 69]%N ∧
  applyFilter ascii_towlower example_tree [78; 79; 84; 69]%N =
    applyFilter ascii_towlower
      (applyFilter ascii_towlower example_tree [111; 116]%N) [78; 79; 84; 69]%N.
Proof.
  assert (ci_substring ascii_towlower [111; 116]%N [78; 79; 84; 69]%N) as H.
  { exists [78]%N, [79; 84]%N, [69]%N. split; [done|]. by repeat constructor. }
  split; [exact H|].
  exact (proj1 (applyFilter_narrows ascii_towlower example_tree _ _ H)).
Defined.

(** ** Refresh *)

Section refresh_order.
Implicit Types (a b c : list N).

Lemma wstring_lt_irrefl a : wstring_lt a a = false.
Proof.
  induction a as [|x a IH]; simpl; [done|].
  destruct (decide (x < x)%N); [lia|done].
Qed.

Lemma wstring_lt_trans a b c :
  wstring_lt a b = true → wstring_lt b c = true → wstring_lt a c = true.
Proof.
  revert b c. induction a as [|x a IH]; intros [|y b] [|z c]; simpl; try done.
  repeat case_decide; try done; try lia.
  assert (x = y) as -> by lia. assert (y = z) as -> by lia. apply IH.
Qed.

Lemma wstring_lt_total a b :
  a ≠ b → wstring_lt a b = true ∨ wstring_lt b a = true.
Proof.
  revert b. induction a as [|x a IH]; intros [|y b] Hne; simpl; try done; [by left|by right|].
  repeat case_decide; auto; try lia.
  assert (x = y) as -> by lia. apply IH. congruence.
Qed.

Lemma wstring_lt_asym a b : wstring_lt a b = true → wstring_lt b a = false.
Proof.
  intros H. destruct (wstring_lt b a) eqn:E; [|done].
  pose proof (wstring_lt_trans a b a H E) as H'. by rewrite wstring_lt_irrefl in H'.
Qed.

(** The comparator, in terms of the two keys. *)
Lemma by_rss_then_name_spec (p q : Proc) :
  by_rss_then_name p q = true ↔
  (rss q < rss p)%N ∨ (rss p = rss q ∧ wstring_lt (name p) (name q) = true).
Proof.
  unfold by_rss_then_name. case_decide.
  - rewrite bool_decide_eq_true. naive_solver.
  - split; [by right|]. intros [?|[_ ?]]; [lia|done].
Qed.

Lemma by_rss_then_name_asym (p q : Proc) :
  by_rss_then_name p q = true → by_rss_then_name q p = false.
Proof.
  rewrite by_rss_then_name_spec. intros H. apply not_true_is_false.
  rewrite by_rss_then_name_spec. intros H'.
  destruct H as [?|[? H]], H' as [?|[? H']]; try lia.
  apply wstring_lt_asym in H. congruence.
Qed.

(** X12.  The comparator of [RefreshData] is a strict weak ordering, as
    [std::sort] requires: irreflexive, transitive, asymmetric, and two
    records are left unordered exactly when they agree on working set and
    name, which is an equivalence. *)
Theorem by_rss_then_name_strict_weak_order (p q r : Proc) :
  by_rss_then_name p p = false ∧
  (by_rss_then_name p q = true → by_rss_then_name q r = true →
   by_rss_then_name p r = true) ∧
  (by_rss_then_name p q = true → by_rss_then_name q p = false) ∧
  (by_rss_then_name p q = false ∧ by_rss_then_name q p = false ↔
   rss p = rss q ∧ name p = name q).
Proof.
  split_and!.
  - apply not_true_is_false. rewrite by_rss_then_name_spec, wstring_lt_irrefl.
    intros [?|[_ ?]]; [lia|done].
  - rewrite !by_rss_then_name_spec. intros [?|[? H1]] [?|[? H2]]; try (left; lia).
    right. split; [congruence|]. by eapply wstring_lt_trans.
  - apply by_rss_then_name_asym.
  - rewrite <- !not_true_iff_false, !by_rss_then_name_spec. split.
    + intros [H1 H2]. assert (rss p = rss q) as Hr by lia. split; [done|].
      destruct (decide (name p = name q)) as [|Hne]; [done|].
      destruct (wstring_lt_total _ _ Hne); exfalso; [apply H1|apply H2]; by right.
    + intros [Hr Hn]. rewrite Hr, Hn, wstring_lt_irrefl.
      split; intros [?|[_ ?]]; done || lia.
Qed.

Lemma not_before_trans (p q r : Proc) :
  by_rss_then_name q p = false → by_rss_then_name r q = false →
  by_rss_then_name r p = false.
Proof.
  intros H1 H2. apply not_true_is_false. intros H3.
  apply not_true_iff_false in H1, H2. rewrite by_rss_then_name_spec in *.
  destruct H3 as [?|[Hrp H3]].
  - destruct (decide (rss q < rss r)%N); [apply H2; by left|].
    apply H1. left. lia.
  - destruct (decide (rss p < rss q)%N); [apply H1; by left|].
    destruct (decide (rss q < rss r)%N); [apply H2; by left|].
    assert (rss q = rss p) by
      (destruct (decide (rss q = rss p)); [done|exfalso; apply H2; left; lia]).
    destruct (decide (name q = name p)) as [Hn|Hn].
    { apply H2. right. split; [congruence|]. by rewrite Hn. }
    destruct (wstring_lt_total _ _ Hn) as [Hqp|Hpq].
    + apply H1. by right.
    + apply H2. right. split; [congruence|]. by eapply wstring_lt_trans.
Qed.

Lemma sorted_by_sublist (l k : list Proc) :
  k `sublist_of` l → sorted_by by_rss_then_name l → sorted_by by_rss_then_name k.
Proof.
  unfold sorted_by. intros Hsub Hs. revert k Hsub.
  induction Hs as [|x l Hs IH Hx]; intros k Hsub.
  - apply sublist_nil_r in Hsub as ->. constructor.
  - apply sublist_cons_r in Hsub as [Hsub|(k' & -> & Hsub)]; [by apply IH|].
    constructor; [by apply IH|]. apply Forall_forall. intros y Hy.
    apply (proj1 (Forall_forall _ _) Hx). by eapply elem_of_sublist.
Qed.

End refresh_order.

Section refresh_correct.
Context {World : Type}.
Variable os : OS World.
Variable towlower : wchar_t → wchar_t.

(** X13.  [RefreshData] always has a result.  In every result [g.all] is
    the snapshot rearranged so that the working set never increases from
    one row to the next and equal working sets are in name order; the
    search text is kept; and the view is the filter of the new [g.all], so
    it is in the same order. *)
Theorem RefreshData_sorted_view (g : AppState) (w : World) :
  (∃ g' w', RefreshData os towlower g w g' w') ∧
  ∀ g' w', RefreshData os towlower g w g' w' →
    g_all g' ≡ₚ (Snapshot os w).1.1 ∧
    sorted_by by_rss_then_name (g_all g') ∧
    StronglySorted (λ a b, (rss b ≤ rss a)%N) (g_all g') ∧
    g_filter g' = g_filter g ∧
    g_filtered g' = applyFilter towlower (g_all g') (g_filter g) ∧
    sorted_by by_rss_then_name (g_filtered g') ∧
    w' = (Snapshot os w).1.2.
Proof.
  split.
  - set (R := λ a b : Proc, by_rss_then_name b a = false).
    assert (Transitive R) by (intros a b c; apply not_before_trans).
    assert (Total R).
    { intros a b. unfold R. destruct (by_rss_then_name b a) eqn:E; [|by left].
      right. by apply by_rss_then_name_asym. }
    assert (∀ a b, Decision (R a b)) as Hdec by (intros a b; unfold R; apply _).
    eexists _, _. exists (merge_sort R (Snapshot os w).1.1).
    split_and!; [apply merge_sort_Permutation| |done|done].
    by apply (StronglySorted_merge_sort R).
  - intros g' w' (sorted & Hperm & Hsorted & -> & ->).
    rewrite ApplyFilter_fields. simpl.
    assert (applyFilter towlower sorted (g_filter g) `sublist_of` sorted) as Hsub
      by (rewrite applyFilter_filter; apply sublist_filter).
    split_and!; [done|done| |done|done| |done].
    + clear -Hsorted. unfold sorted_by in Hsorted.
      induction Hsorted as [|a l _ IH Ha]; constructor; [done|].
      eapply Forall_impl; [exact Ha|]. intros b Hab. simpl in Hab.
      apply not_true_iff_false in Hab. rewrite by_rss_then_name_spec in Hab.
      destruct (decide (rss b ≤ rss a)%N); [done|]. exfalso. apply Hab. left. lia.
    + by eapply sorted_by_sublist.
Qed.

End refresh_correct.


(** ** Export *)

Section export_text.
Implicit Types (s : list N) (c : N) (v : list Proc).

Lemma JsonEscape_cons c s : JsonEscape (c :: s) = JsonEscape_char c ++ JsonEscape s.
Proof.
  unfold JsonEscape. simpl. generalize (JsonEscape_char c). clear c.
  induction s as [|c s IH] using rev_ind; intros acc; simpl.
  - by rewrite app_nil_r.
  - by rewrite !foldl_snoc, IH, (assoc_L (++)).
Qed.

Lemma CsvEscape_cons c s :
  CsvEscape (c :: s) = (if decide (c = DQ) then [] else [c]) ++ CsvEscape s.
Proof.
  unfold CsvEscape. simpl. generalize (if decide (c = DQ) then [] else [c]). clear c.
  induction s as [|c s IH] using rev_ind; intros acc; simpl.
  - by rewrite app_nil_r.
  - by rewrite !foldl_snoc, IH, (assoc_L (++)).
Qed.

Lemma N_lt_32_cases c : (c < 32)%N → c ∈ N.of_nat <$> seq 0 32.
Proof.
  intros H. apply list_elem_of_fmap. exists (N.to_nat c).
  split; [lia|]. apply elem_of_seq. lia.
Qed.

(** The four digits after the u of an escape: 00 and the two hexadecimal
    digits of the character. *)
Lemma setw_put_hex_small c :
  (c < 32)%N →
  setw 4 48%N (put_hex c) = [48; 48; hex_digit (c / 16); hex_digit (c mod 16)]%N.
Proof.
  intros H. apply N_lt_32_cases in H. revert c H. apply Forall_forall.
  refine (bool_decide_unpack _ _). vm_compute. exact I.
Qed.

(** [JsonEscape_char] with its literals spelled out. *)
Lemma JsonEscape_char_codes c :
  JsonEscape_char c =
  if decide (c = 34%N) then [92; 34]%N
  else if decide (c = 92%N) then [92; 92]%N
  else if decide (c = 8%N) then [92; 98]%N
  else if decide (c = 12%N) then [92; 102]%N
  else if decide (c = 10%N) then [92; 110]%N
  else if decide (c = 13%N) then [92; 114]%N
  else if decide (c = 9%N) then [92; 116]%N
  else if decide (c < 32)%N
       then [92; 117; 48; 48; hex_digit (c / 16); hex_digit (c mod 16)]%N
  else [c].
Proof.
  unfold JsonEscape_char, DQ, BS. repeat case_decide; try done.
  by rewrite setw_put_hex_small.
Qed.

Lemma hex_digit_is_hex d : (d < 16)%N → is_hex_digit (hex_digit d).
Proof. unfold hex_digit, is_hex_digit. case_decide; lia. Qed.

Lemma hex_digit_inj d d' :
  (d < 16)%N → (d' < 16)%N → hex_digit d = hex_digit d' → d = d'.
Proof. unfold hex_digit. repeat case_decide; lia. Qed.


Lemma escape_letter x : x ∈ [34; 92; 98; 102; 110; 114; 116]%N →
  x ∈ [DQ; BS; 47; 98; 102; 110; 114; 116]%N.
Proof. unfold DQ, BS. rewrite !elem_of_cons. tauto. Qed.

Lemma JsonEscape_length_le s : length s ≤ length (JsonEscape s).
Proof.
  induction s as [|c s IH]; [done|].
  rewrite JsonEscape_cons, JsonEscape_char_codes, length_app.
  repeat case_decide; simpl; lia.
Qed.

Lemma json_chars_JsonEscape s : json_chars (JsonEscape s).
Proof.
  induction s as [|c s IH]; [constructor|].
  rewrite JsonEscape_cons, JsonEscape_char_codes.
  repeat case_decide; simpl.
  1-7: apply json_chars_escape; [apply escape_letter; rewrite !elem_of_cons; tauto|done].
  - apply json_chars_unicode; try done; try (unfold is_hex_digit; lia).
    + apply hex_digit_is_hex, N.Div0.div_lt_upper_bound. lia.
    + apply hex_digit_is_hex, N.mod_lt. lia.
  - apply json_chars_plain; unfold DQ, BS; try done; lia.
Qed.

(** X14.  [JsonEscape] writes the inside of a JSON string: its output has
    no quote, backslash or control character outside an escape, and every
    escape is one that JSON defines.  A text without quote, backslash and
    control character is returned as it is, and the output is never shorter
    than the input nor longer than six times the input. *)
Theorem JsonEscape_json_chars s :
  json_chars (JsonEscape s) ∧
  (Forall (λ c, (32 ≤ c)%N ∧ c ≠ DQ ∧ c ≠ BS) s → JsonEscape s = s) ∧
  length s ≤ length (JsonEscape s) ≤ 6 * length s.
Proof.
  split_and!.
  - apply json_chars_JsonEscape.
  - induction 1 as [|c s (H1 & H2 & H3) _ IH]; [done|].
    rewrite JsonEscape_cons, JsonEscape_char_codes, IH. unfold DQ, BS in *.
    repeat case_decide; try done; lia.
  - apply JsonEscape_length_le.
  - induction s as [|c s IH]; [simpl; lia|].
    rewrite JsonEscape_cons, JsonEscape_char_codes, length_app.
    repeat case_decide; simpl; lia.
Qed.
Lemma JsonEscape_char_prefix_free c c' (X X' : list N) :
  JsonEscape_char c ++ X = JsonEscape_char c' ++ X' → c = c' ∧ X = X'.
Proof.
  rewrite !JsonEscape_char_codes.
  destruct (decide (c = 34%N)) as [->|?]; [|
  destruct (decide (c = 92%N)) as [->|?]; [|
  destruct (decide (c = 8%N)) as [->|?]; [|
  destruct (decide (c = 12%N)) as [->|?]; [|
  destruct (decide (c = 10%N)) as [->|?]; [|
  destruct (decide (c = 13%N)) as [->|?]; [|
  destruct (decide (c = 9%N)) as [->|?]; [|
  destruct (decide (c < 32)%N)]]]]]]];
  (destruct (decide (c' = 34%N)) as [->|?]; [|
   destruct (decide (c' = 92%N)) as [->|?]; [|
   destruct (decide (c' = 8%N)) as [->|?]; [|
   destruct (decide (c' = 12%N)) as [->|?]; [|
   destruct (decide (c' = 10%N)) as [->|?]; [|
   destruct (decide (c' = 13%N)) as [->|?]; [|
   destruct (decide (c' = 9%N)) as [->|?]; [|
   destruct (decide (c' < 32)%N)]]]]]]]);
  simpl; intros H; try discriminate H; injection H as H; subst; try done; try lia.
  match goal with
  | H1 : hex_digit (c / 16)%N = hex_digit (c' / 16)%N,
    H2 : hex_digit (c mod 16)%N = hex_digit (c' mod 16)%N |- _ =>
      apply hex_digit_inj in H1;
        [|apply N.Div0.div_lt_upper_bound; lia|apply N.Div0.div_lt_upper_bound; lia];
      apply hex_digit_inj in H2; [|apply N.mod_lt; lia|apply N.mod_lt; lia]
  end.
  split; [|done].
  rewrite (N.div_mod c 16), (N.div_mod c' 16) by lia. congruence.
Qed.

(** X15.  [JsonEscape] loses nothing: two texts with the same escaped form
    are the same text. *)
Theorem JsonEscape_injective s s' : JsonEscape s = JsonEscape s' → s = s'.
Proof.
  revert s'. induction s as [|c s IH]; intros [|c' s'] H.
  - done.
  - exfalso. apply (f_equal length) in H. simpl in H.
    pose proof (JsonEscape_length_le (c' :: s')). simpl in *. lia.
  - exfalso. apply (f_equal length) in H. simpl in H.
    pose proof (JsonEscape_length_le (c :: s)). simpl in *. lia.
  - rewrite !JsonEscape_cons in H. apply JsonEscape_char_prefix_free in H as [-> H].
    f_equal. by apply IH.
Qed.

Lemma CsvEscape_filter s : CsvEscape s = filter (λ c, c ≠ DQ) s.
Proof.
  induction s as [|c s IH]; [done|]. rewrite CsvEscape_cons, IH, filter_cons.
  by destruct (decide (c = DQ)), (decide (c ≠ DQ)).
Qed.

(** X16.  [CsvEscape] does not double a quote, it drops it: the output is
    the input without its quote characters, every other character kept in
    place.  So the output has no quote, a text without quotes is unchanged,
    and a text with a quote cannot be recovered from the output. *)
Theorem CsvEscape_drops_quotes s :
  CsvEscape s = filter (λ c, c ≠ DQ) s ∧
  (DQ ∉ CsvEscape s) ∧
  (CsvEscape s = s ↔ DQ ∉ s) ∧
  (∀ s1 s2, CsvEscape (s1 ++ [DQ] ++ s2) = CsvEscape (s1 ++ s2)).
Proof.
  split_and!.
  - apply CsvEscape_filter.
  - rewrite CsvEscape_filter, list_elem_of_filter. naive_solver.
  - rewrite CsvEscape_filter. split.
    + intros H Hin. rewrite <- H in Hin. apply list_elem_of_filter in Hin. naive_solver.
    + intros H. induction s as [|c s IH]; [done|].
      rewrite filter_cons_True, IH; [done| |]; set_solver.
  - intros s1 s2. rewrite !CsvEscape_filter, !filter_app. by rewrite filter_cons_False by naive_solver.
Qed.

End export_text.

Section export_documents.
Implicit Types (s : list N) (c : N) (v : list Proc).

(** Replace every literal by its code units. *)
Ltac eval_literals :=
  repeat match goal with
         | |- context [L ?s] =>
             let v := eval vm_compute in (L s) in change (L s) with v
         end.

(** Bring both sides of an equation of texts to one right-nested form. *)
Ltac same_text :=
  eval_literals; repeat first [rewrite <- (assoc_L (++)) | progress simpl]; try done.

Lemma dec_codes_digits d : Forall is_digit (dec_codes d).
Proof. induction d; simpl; constructor; (done || (unfold is_digit; lia)). Qed.

Lemma to_uint_normal n : N.to_uint n = Decimal.unorm (N.to_uint n).
Proof.
  rewrite <- (DecimalN.Unsigned.to_of (N.to_uint n)).
  by rewrite DecimalN.Unsigned.of_to.
Qed.

Lemma nzhead_shape d :
  Decimal.nzhead d = Decimal.Nil ∨
  ∃ c s, dec_codes (Decimal.nzhead d) = c :: s ∧ c ≠ 48%N.
Proof.
  induction d; simpl; [by left|done|right; eexists _, _; split; done..].
Qed.

(** A number is written as digits, without a leading zero unless it is
    zero. *)
Lemma put_dec_json_number n : json_number (put_dec n).
Proof.
  unfold json_number, put_dec. rewrite to_uint_normal. unfold Decimal.unorm.
  destruct (nzhead_shape (N.to_uint n)) as [->|(c & s & H & Hc)].
  - split_and!; [done|repeat constructor; unfold is_digit; lia|by intros ? [= <-]].
  - assert (dec_codes (match Decimal.nzhead (N.to_uint n) with
                       | Decimal.Nil => Decimal.D0 Decimal.Nil
                       | d => d end) = c :: s) as ->.
    { by destruct (Decimal.nzhead (N.to_uint n)). }
    split_and!; [done| |by intros ? [= ? ?]].
    rewrite <- H. apply dec_codes_digits.
Qed.

Lemma json_chars_plain_all s :
  Forall (λ c, (32 ≤ c)%N ∧ c ≠ DQ ∧ c ≠ BS) s → json_chars s.
Proof. induction 1 as [|c s (? & ? & ?) _ IH]; by constructor. Qed.

(** The loop of [BuildJson] puts a comma after every object but the
    last. *)
Lemma BuildJson_loop_sep_by (f : Proc → list N) v :
  ∀ k, concat (imap (λ i p, f p ++ (if decide (k + i + 1 < k + length v)
                                    then L "," else [])) v)
       = sep_by COMMA (f <$> v).
Proof.
  induction v as [|p v IH]; intros k; [done|].
  rewrite imap_cons. simpl.
  rewrite (imap_ext _ (λ i q, f q ++ (if decide (S k + i + 1 < S k + length v)
                                      then L "," else [])) v).
  2:{ intros i q _. simpl. repeat case_decide; done || lia. }
  rewrite IH. destruct v as [|q v]; simpl.
  - destruct (decide (k + 0 + 1 < k + 1)); [lia|]. by rewrite !app_nil_r.
  - destruct (decide (k + 0 + 1 < k + S (S (length v)))); [|lia].
    eval_literals. by rewrite <- (assoc_L (++)).
Qed.

Lemma BuildJson_loop_commas (f : Proc → list N) v :
  concat (imap (λ i p, f p ++ (if decide (i + 1 < length v) then L "," else [])) v)
  = sep_by COMMA (f <$> v).
Proof. exact (BuildJson_loop_sep_by f v 0). Qed.

Lemma BuildJson_row_object (p : Proc) :
  BuildJson_row p =
  123%N :: sep_by COMMA (json_member <$> BuildJson_members p) ++ [125%N].
Proof.
  unfold BuildJson_row, BuildJson_members, json_member, DQ, COMMA.
  same_text.
Qed.

Lemma BuildJson_row_value (p : Proc) : json_value (BuildJson_row p).
Proof.
  rewrite BuildJson_row_object. apply (json_value_object (BuildJson_members p)).
  unfold BuildJson_members. repeat apply Forall_cons_2; try apply Forall_nil_2; simpl;
    (split; [apply json_chars_plain_all; refine (bool_decide_unpack _ _); vm_compute; exact I|]).
  - apply json_value_number, put_dec_json_number.
  - apply json_value_number, put_dec_json_number.
  - apply json_value_string, json_chars_JsonEscape.
  - apply json_value_string, json_chars_JsonEscape.
  - apply json_value_number, put_dec_json_number.
Qed.

(** X17.  [BuildJson] writes one JSON document and a line feed: an object
    with the one member processes, whose value is the array of one object
    per record, in order, each with the members pid, ppid, name, path and
    rss_bytes; the document follows the JSON grammar for every snapshot,
    whatever characters the names and paths hold. *)
Theorem BuildJson_valid v :
  BuildJson v =
    123%N :: sep_by COMMA
      [json_member (L "processes",
         91%N :: sep_by COMMA
           ((λ p, 123%N :: sep_by COMMA (json_member <$> BuildJson_members p) ++ [125%N])
              <$> v) ++ [93%N])] ++ [125%N] ++ [LF] ∧
  ∃ doc, BuildJson v = doc ++ [LF] ∧ json_value doc.
Proof.
  assert (BuildJson v =
    123%N :: sep_by COMMA
      [json_member (L "processes", 91%N :: sep_by COMMA (BuildJson_row <$> v) ++ [93%N])]
      ++ [125%N] ++ [LF]) as H.
  { unfold BuildJson.
    rewrite BuildJson_loop_commas.
    unfold json_member, DQ, COMMA, LF. same_text. }
  split.
  - rewrite H.
    by rewrite (list_fmap_ext BuildJson_row
      (λ p, 123%N :: sep_by COMMA (json_member <$> BuildJson_members p) ++ [125%N]) v)
      by (intros; apply BuildJson_row_object).
  - eexists. split; [rewrite H; by rewrite app_comm_cons, (assoc_L (++))|].
    apply (json_value_object [(L "processes", _)]).
    apply Forall_singleton. split.
    + apply json_chars_plain_all. refine (bool_decide_unpack _ _). vm_compute. exact I.
    + apply json_value_array. apply Forall_fmap, Forall_forall. intros p _.
      apply BuildJson_row_value.
Qed.

Lemma BuildCsv_unfold v :
  BuildCsv v = (L "PID,PPID,RSS_BYTES,Name,Path" ++ [LF]) ++ concat (BuildCsv_row <$> v).
Proof.
  unfold BuildCsv. generalize (L "PID,PPID,RSS_BYTES,Name,Path" ++ [LF]).
  induction v as [|p v IH]; intros acc; simpl.
  - by rewrite app_nil_r.
  - by rewrite IH, <- (assoc_L (++)).
Qed.

Lemma csv_quoted_chars_no_quote s : DQ ∉ s → csv_quoted_chars s.
Proof.
  induction s as [|c s IH]; intros H; [constructor|].
  apply csv_quoted_char; [|apply IH]; set_solver.
Qed.

Lemma put_dec_csv_field n : csv_field (put_dec n).
Proof.
  left. destruct (put_dec_json_number n) as (_ & H & _).
  eapply Forall_impl; [exact H|]. unfold is_digit, DQ, COMMA, LF. intros c ?.
  split_and!; lia.
Qed.

Lemma BuildCsv_q_csv_field s : csv_field (BuildCsv_q s).
Proof.
  right. exists (CsvEscape s). split; [done|].
  apply csv_quoted_chars_no_quote. rewrite CsvEscape_filter, list_elem_of_filter. naive_solver.
Qed.

(** X18.  [BuildCsv] writes the header line and one line per record, in
    order; every line is five fields with commas between them and a line
    feed at the end; the three numbers are plain fields, and name and path
    are quoted fields with no quote inside, so a comma or a line break in
    a name does not break the record. *)
Theorem BuildCsv_well_formed v :
  BuildCsv v =
    concat (csv_line <$>
      ([L "PID"; L "PPID"; L "RSS_BYTES"; L "Name"; L "Path"] :: (BuildCsv_fields <$> v))) ∧
  Forall (λ fields, length fields = 5 ∧ Forall csv_field fields)
    ([L "PID"; L "PPID"; L "RSS_BYTES"; L "Name"; L "Path"] :: (BuildCsv_fields <$> v)).
Proof.
  split.
  - assert (csv_line [L "PID"; L "PPID"; L "RSS_BYTES"; L "Name"; L "Path"] =
            L "PID,PPID,RSS_BYTES,Name,Path" ++ [LF]) as Hheader by reflexivity.
    assert (csv_line <$> (BuildCsv_fields <$> v) = BuildCsv_row <$> v) as Hrows.
    { rewrite <- list_fmap_compose. apply list_fmap_ext. intros _ p _.
      unfold compose, BuildCsv_row, BuildCsv_fields, csv_line, COMMA. same_text. }
    rewrite BuildCsv_unfold, fmap_cons.
    change (concat (?x :: ?l)) with (x ++ concat l). by rewrite Hheader, Hrows.
  - constructor.
    + split; [done|].
      repeat (apply Forall_cons_2;
              [left; refine (bool_decide_unpack _ _); vm_compute; exact I|]).
      apply Forall_nil_2.
    + apply Forall_fmap, Forall_forall. intros p _. split; [done|].
      unfold BuildCsv_fields.
      repeat (apply Forall_cons_2;
              [first [apply put_dec_csv_field | apply BuildCsv_q_csv_field]|]).
      apply Forall_nil_2.
Qed.

End export_documents.

(** A name with a quote in it and the same name without it give the same
    CSV line: the quote is lost. *)
Example BuildCsv_loses_quotes :
  BuildCsv [mkProc 8 4 (L "a" ++ [DQ] ++ L "b") [] 0] =
  BuildCsv [mkProc 8 4 (L "ab") [] 0].
Proof. vm_compute. done. Qed.

(** ** Error text *)

Lemma pop_CRLF_spec (l : list N) :
  ∃ dropped, l = dropped ++ pop_CRLF l ∧
             Forall (λ c, c = 13%N ∨ c = 10%N) dropped ∧
             ∀ c, head (pop_CRLF l) = Some c → c ≠ 13%N ∧ c ≠ 10%N.
Proof.
  induction l as [|c l (dropped & H1 & H2 & H3)]; simpl.
  - by exists [].
  - case_decide.
    + exists (c :: dropped). split_and!; [by rewrite H1 at 1|by constructor|done].
    + exists []. split_and!; [done|constructor|]. intros ? [= <-]. tauto.
Qed.

(** X19.  [LastErrorMessage]: error 0 is the text OK; when the system has no
    message the text is (unknown); otherwise it is the message of the
    system without the carriage returns and line feeds at its end, and
    nothing else is removed.  The result never ends in a line break. *)
Theorem LastErrorMessage_trimmed (FormatMessageW : N → option (list N)) (err : N) :
  (∀ c, last (LastErrorMessage FormatMessageW err) = Some c → c ≠ 13%N ∧ c ≠ 10%N) ∧
  (err = 0%N → LastErrorMessage FormatMessageW err = L "OK") ∧
  (err ≠ 0%N →
   match FormatMessageW err with
   | Some (c :: buf) =>
       ∃ tail, c :: buf = LastErrorMessage FormatMessageW err ++ tail ∧
               Forall (λ c, c = 13%N ∨ c = 10%N) tail
   | _ => LastErrorMessage FormatMessageW err = L "(unknown)"
   end).
Proof.
  unfold LastErrorMessage. destruct (decide (err = 0%N)) as [->|Hne].
  { split_and!; [|done|done]. intros c. vm_compute. intros [= <-]. done. }
  split_and!; [|done|intros _].
  - intros c. rewrite last_reverse.
    destruct (pop_CRLF_spec (reverse (match FormatMessageW err with
                                      | Some (c0 :: buf) => c0 :: buf
                                      | _ => L "(unknown)" end)))
      as (_ & _ & _ & H). apply H.
  - destruct (FormatMessageW err) as [[|c buf]|]; try (vm_compute; done).
    destruct (pop_CRLF_spec (reverse (c :: buf))) as (dropped & H1 & H2 & _).
    exists (reverse dropped). split.
    + rewrite <- reverse_app, <- H1. by rewrite reverse_involutive.
    + by apply Forall_reverse.
Qed.

(** ** The JSON text determines the snapshot *)

Section export_injective.
Implicit Types (s r : list N) (c : N) (v : list Proc).

Ltac eval_literals :=
  repeat match goal with
         | |- context [L ?s] =>
             let v := eval vm_compute in (L s) in change (L s) with v
         | H : context [L ?s] |- _ =>
             let v := eval vm_compute in (L s) in change (L s) with v in H
         end.

Lemma dec_codes_inj d d' : dec_codes d = dec_codes d' → d = d'.
Proof.
  revert d'. induction d; intros d'; destruct d'; simpl; intros H;
    try discriminate H; try done; injection H as H; f_equal; auto.
Qed.

Lemma put_dec_inj n n' : put_dec n = put_dec n' → n = n'.
Proof. intros H. by apply DecimalN.Unsigned.to_uint_inj, dec_codes_inj. Qed.

(** Digits end at the first character that is not a digit. *)
Lemma digits_delimited (a b : list N) x y r r' :
  Forall is_digit a → Forall is_digit b → ¬ is_digit x → ¬ is_digit y →
  a ++ x :: r = b ++ y :: r' → a = b ∧ x = y ∧ r = r'.
Proof.
  intros Ha. revert b. induction Ha as [|c a Hc _ IH]; intros b Hb Hx Hy H.
  - destruct Hb as [|c' b Hc' _]; simpl in H; [by injection H|].
    injection H as -> _. done.
  - destruct Hb as [|c' b Hc' Hb]; simpl in H.
    + injection H as -> _. done.
    + injection H as -> H. destruct (IH b Hb Hx Hy H) as (-> & -> & ->). done.
Qed.

Lemma put_dec_delimited n n' x y r r' :
  ¬ is_digit x → ¬ is_digit y →
  put_dec n ++ x :: r = put_dec n' ++ y :: r' → n = n' ∧ x = y ∧ r = r'.
Proof.
  intros Hx Hy H.
  destruct (put_dec_json_number n) as (_ & Hn & _), (put_dec_json_number n') as (_ & Hn' & _).
  destruct (digits_delimited _ _ _ _ _ _ Hn Hn' Hx Hy H) as (E & -> & ->).
  by apply put_dec_inj in E as ->.
Qed.

Lemma JsonEscape_char_not_quote c X r : JsonEscape_char c ++ X ≠ DQ :: r.
Proof.
  rewrite JsonEscape_char_codes. unfold DQ.
  repeat case_decide; simpl; intros [= ?]; done.
Qed.

(** An escaped text ends at the first quote. *)
Lemma JsonEscape_delimited s s' r r' :
  JsonEscape s ++ DQ :: r = JsonEscape s' ++ DQ :: r' → s = s' ∧ r = r'.
Proof.
  revert s'. induction s as [|c s IH]; intros [|c' s'] H.
  - by injection H.
  - exfalso. rewrite JsonEscape_cons, <- (assoc_L (++)) in H. simpl in H.
    symmetry in H. by apply JsonEscape_char_not_quote in H.
  - exfalso. rewrite JsonEscape_cons, <- (assoc_L (++)) in H. simpl in H.
    by apply JsonEscape_char_not_quote in H.
  - rewrite !JsonEscape_cons, <- !(assoc_L (++)) in H.
    apply JsonEscape_char_prefix_free in H as [-> H].
    destruct (IH s' H) as [-> ->]. done.
Qed.

Lemma not_digit_codes : ¬ is_digit 44 ∧ ¬ is_digit 125.
Proof. unfold is_digit. lia. Qed.

(** An object of [BuildJson] determines its record and where it ends. *)
Lemma BuildJson_row_delimited (p p' : Proc) (X X' : list N) :
  BuildJson_row p ++ X = BuildJson_row p' ++ X' → p = p' ∧ X = X'.
Proof.
  unfold BuildJson_row. intros H. eval_literals.
  repeat first [rewrite <- (assoc_L (++)) in H | progress simpl in H].
  destruct not_digit_codes as [H44 H125].
  injection H as H. apply put_dec_delimited in H as (Hpid & _ & H); [|done..].
  injection H as H. apply put_dec_delimited in H as (Hppid & _ & H); [|done..].
  injection H as H. apply JsonEscape_delimited in H as (Hname & H).
  injection H as H. apply JsonEscape_delimited in H as (Hpath & H).
  injection H as H. apply put_dec_delimited in H as (Hrss & _ & H); [|done..].
  split; [|done]. destruct p, p'; simpl in *. congruence.
Qed.

Lemma BuildJson_row_head (p : Proc) X : ∃ r, BuildJson_row p ++ X = 123%N :: r.
Proof. unfold BuildJson_row. eval_literals. simpl. by eexists. Qed.

Lemma BuildJson_rows_text (q : Proc) (w : list Proc) (t : list N) :
  sep_by COMMA (BuildJson_row <$> q :: w) ++ 93%N :: t =
  BuildJson_row q ++
    match w with
    | [] => 93%N :: t
    | _ => COMMA :: sep_by COMMA (BuildJson_row <$> w) ++ 93%N :: t
    end.
Proof.
  destruct w as [|q' w]; [reflexivity|]. rewrite !fmap_cons.
  change (sep_by COMMA (BuildJson_row q :: ?l)) with
    (BuildJson_row q ++ COMMA :: sep_by COMMA l) at 1.
  by rewrite <- (assoc_L (++)).
Qed.

Lemma BuildJson_rows_delimited v v' (tail tail' : list N) :
  sep_by COMMA (BuildJson_row <$> v) ++ 93%N :: tail =
  sep_by COMMA (BuildJson_row <$> v') ++ 93%N :: tail' → v = v'.
Proof.
  revert v'. induction v as [|p v IH]; intros [|p' v'] H; [done| | |].
  - exfalso. rewrite BuildJson_rows_text in H.
    change (sep_by COMMA (BuildJson_row <$> []) ++ 93%N :: tail) with (93%N :: tail) in H.
    destruct (BuildJson_row_head p'
      match v' with
      | [] => 93%N :: tail'
      | _ => COMMA :: sep_by COMMA (BuildJson_row <$> v') ++ 93%N :: tail'
      end) as [r Hr].
    rewrite Hr in H. done.
  - exfalso. rewrite BuildJson_rows_text in H.
    change (sep_by COMMA (BuildJson_row <$> []) ++ 93%N :: tail') with (93%N :: tail') in H.
    destruct (BuildJson_row_head p
      match v with
      | [] => 93%N :: tail
      | _ => COMMA :: sep_by COMMA (BuildJson_row <$> v) ++ 93%N :: tail
      end) as [r Hr].
    rewrite Hr in H. done.
  - rewrite !BuildJson_rows_text in H. apply BuildJson_row_delimited in H as [-> H].
    f_equal. destruct v as [|q v], v' as [|q' v']; try done.
    injection H as H. by apply IH.
Qed.

(** X20.  The JSON text determines the snapshot: two snapshots with the
    same text have the same records in the same order, with the same pid,
    parent pid, name, path and working set. *)
Theorem BuildJson_injective v v' : BuildJson v = BuildJson v' → v = v'.
Proof.
  assert (∀ w, BuildJson w =
               L "{" ++ [DQ] ++ L "processes" ++ [DQ] ++ L ":[" ++
               sep_by COMMA (BuildJson_row <$> w) ++ 93%N :: [125%N; LF]) as H.
  { intros w. unfold BuildJson. rewrite BuildJson_loop_commas. by eval_literals. }
  rewrite !H. intros E. eval_literals. simpl in E.
  injection E as E. by apply BuildJson_rows_delimited in E.
Qed.

End export_injective.

(** ** The traversal stays inside the snapshot *)

(** X21.  Apart from the root it was started on, the traversal emits only
    pids of records of the snapshot; on a tree it emits no more than one
    pid per record and the root. *)
Theorem CollectTree_within_snapshot (v : list Proc) fuel (root : N) (out : list N) :
  CollectTree fuel root (BuildChildren v) [] = Some out →
  (∀ x, x ∈ out → x = root ∨ x ∈ pid <$> v) ∧
  (tree_snapshot v → length out ≤ S (length v)).
Proof.
  intros Hout.
  assert (∀ x, x ∈ out → x = root ∨ x ∈ pid <$> v) as Hin.
  { intros x Hx. apply (elem_of_CollectTree v fuel root out Hout) in Hx as [?|Hx]; [by left|].
    right. apply tc_inv_l in Hx as (y & Hxy & _). by eapply child_pid. }
  split; [done|]. intros Htree.
  pose proof (NoDup_CollectTree v fuel root out Htree Hout) as Hnd.
  assert (out ⊆ root :: (pid <$> v)) as Hsub.
  { intros x Hx. apply elem_of_cons. by apply Hin. }
  apply NoDup_submseteq in Hsub; [|done].
  apply submseteq_length in Hsub. simpl in Hsub. by rewrite length_fmap in Hsub.
Qed.

(** X21 on the example tree. *)
Lemma CollectTree_within_snapshot_witness :
  CollectTree 3 10%N (BuildChildren example_tree) [] = Some [10; 20; 40; 30]%N ∧
  ∀ x, x ∈ [10; 20; 40; 30]%N → x = 10%N ∨ x ∈ pid <$> example_tree.
Proof.
  split; [reflexivity|].
  exact (proj1 (CollectTree_within_snapshot example_tree 3 10%N _ eq_refl)).
Defined.

(** ** The export on concrete texts *)

(** A quote, a backslash, a line feed and the control character 1. *)
Example JsonEscape_example :
  JsonEscape (L "a" ++ [DQ; BS; 10; 1]%N ++ L "z") =
  L "a" ++ [BS; DQ; BS; BS; BS] ++ L "n" ++ [BS] ++ L "u0001z".
Proof. vm_compute. done. Qed.

Example BuildJson_example :
  BuildJson [mkProc 4 0 (L "System") [] 4096; mkProc 8 4 (L "a.exe") (L "C:" ++ [BS] ++ L "a.exe") 12345] =
  L "{" ++ [DQ] ++ L "processes" ++ [DQ] ++ L ":[{" ++
    [DQ] ++ L "pid" ++ [DQ] ++ L ":4," ++ [DQ] ++ L "ppid" ++ [DQ] ++ L ":0," ++
    [DQ] ++ L "name" ++ [DQ] ++ L ":" ++ [DQ] ++ L "System" ++ [DQ] ++ L "," ++
    [DQ] ++ L "path" ++ [DQ] ++ L ":" ++ [DQ; DQ] ++ L "," ++
    [DQ] ++ L "rss_bytes" ++ [DQ] ++ L ":4096},{" ++
    [DQ] ++ L "pid" ++ [DQ] ++ L ":8," ++ [DQ] ++ L "ppid" ++ [DQ] ++ L ":4," ++
    [DQ] ++ L "name" ++ [DQ] ++ L ":" ++ [DQ] ++ L "a.exe" ++ [DQ] ++ L "," ++
    [DQ] ++ L "path" ++ [DQ] ++ L ":" ++ [DQ] ++ L "C:" ++ [BS; BS] ++ L "a.exe" ++ [DQ] ++ L "," ++
    [DQ] ++ L "rss_bytes" ++ [DQ] ++ L ":12345}]}" ++ [LF] ∧
  BuildJson [] = L "{" ++ [DQ] ++ L "processes" ++ [DQ] ++ L ":[]}" ++ [LF].
Proof. vm_compute. done. Qed.

Example BuildCsv_example :
  BuildCsv [mkProc 8 4 (L "a,b.exe") (L "C:" ++ [BS] ++ L "a,b.exe") 12345] =
  L "PID,PPID,RSS_BYTES,Name,Path" ++ [LF] ++
  L "8,4,12345," ++ [DQ] ++ L "a,b.exe" ++ [DQ] ++ L "," ++
    [DQ] ++ L "C:" ++ [BS] ++ L "a,b.exe" ++ [DQ] ++ [LF].
Proof. vm_compute. done. Qed.

Example LastErrorMessage_example :
  LastErrorMessage (λ _, Some (L "Access is denied." ++ [13; 10]%N)) 5 =
    L "Access is denied." ∧
  LastErrorMessage (λ _, None) 5 = L "(unknown)".
Proof. vm_compute. done. Qed.

(** X15 on a text with a quote. *)
Lemma JsonEscape_injective_witness :
  JsonEscape (L "a" ++ [DQ]) = JsonEscape (L "a" ++ [DQ]) ∧
  L "a" ++ [DQ] = L "a" ++ [DQ].
Proof.
  split; [reflexivity|].
  exact (JsonEscape_injective (L "a" ++ [DQ]) (L "a" ++ [DQ]) eq_refl).
Defined.

(** X20 on the example tree. *)
Lemma BuildJson_injective_witness :
  BuildJson example_tree = BuildJson example_tree ∧ example_tree = example_tree.
Proof.
  split; [reflexivity|].
  exact (BuildJson_injective example_tree example_tree eq_refl).
Defined.
